(** * Assembly line balancing (SALBP): instance loading and solution evaluation

    A shallow embedding of [assembly_line_balancing_problem.py]: the class
    [AssemblyLineBalancingProblem] with its token-stream loader
    [_load_instance_from_file] and its scoring function [evaluate_solution],
    followed by the properties of both. *)

From Stdlib Require Import ZArith String Ascii.
From stdpp Require Import gmap list sorting.

Local Open Scope Z_scope.
Set Warnings "-register-all".

(** ** Python values and control flow *)

(** The exceptions the two methods can raise. *)
Inductive exn := ValueError | IndexError | KeyError | StopIteration.

(** The result of a call: a value, or a raised exception. *)
Inductive outcome (A : Type) :=
| Ok (a : A)
| Raise (e : exn).
Arguments Ok {A} a.
Arguments Raise {A} e.

(** The objects a caller may pass as [solution], or as one of its entries.
    A float is kept as mantissa and binary exponent; it is never inspected. *)
Inductive pyobj :=
| PyNone
| PyInt (z : Z)
| PyBool (b : bool)
| PyFloat (m e : Z)
| PyStr (s : string)
| PyList (items : list pyobj)
| PyTuple (items : list pyobj).

(** [isinstance(solution, (list, tuple))], giving the items when it holds. *)
Definition as_sequence (solution : pyobj) : option (list pyobj) :=
  match solution with
  | PyList items | PyTuple items => Some items
  | _ => None
  end.

(** [isinstance(s, int)], giving the integer value when it holds. [bool] is a
    subclass of [int]: [True] is 1 and [False] is 0, also as a dict key and as
    a set element. *)
Definition as_int (s : pyobj) : option Z :=
  match s with
  | PyInt z => Some z
  | PyBool b => Some (if b then 1 else 0)
  | _ => None
  end.

(** [l[i]] for a list and an integer index: a negative index counts from the
    end, anything outside [-len, len) raises [IndexError]. *)
Definition py_getitem {A} (l : list A) (i : Z) : outcome A :=
  let j := if i <? 0 then i + Z.of_nat (length l) else i in
  if j <? 0 then Raise IndexError
  else match l !! Z.to_nat j with
       | Some x => Ok x
       | None => Raise IndexError
       end.

(** What [evaluate_solution] returns: the float [1e9], or an [int]. *)
Inductive score :=
| Penalty
| Stations (n : nat).

Definition score_value (s : score) : Z :=
  match s with
  | Penalty => 10 ^ 9
  | Stations n => Z.of_nat n
  end.

(** The state of a loop body that may [return] or raise. *)
Inductive flow (S : Type) :=
| Next (s : S)
| Return (v : score)
| Throw (e : exn).
Arguments Next {S} s.
Arguments Return {S} v.
Arguments Throw {S} e.

(** ** The problem instance *)

Record AssemblyLineBalancingProblem := {
  nb_tasks : Z;
  max_nb_stations : Z;
  cycle_time : Z;
  processing_time : list Z;
  (* a dict in insertion order: predecessor, then its list of successors *)
  successors : list (Z * list Z)
}.

(** ** evaluate_solution *)

Definition PENALTY : score := Penalty.

(** The first loop: [None] when it returns [PENALTY], otherwise the integer
    values of the entries, all of which passed the test. *)
Fixpoint check_stations (max_nb : Z) (solution : list pyobj) : option (list Z) :=
  match solution with
  | [] => Some []
  | s :: rest =>
      match as_int s with
      | None => None
      | Some z =>
          if (z <? 0) || (z >=? max_nb) then None
          else cons z <$> check_stations max_nb rest
      end
  end.

(** [station_times.setdefault(station, 0)]. *)
Definition setdefault (station : Z) (station_times : gmap Z Z) : gmap Z Z :=
  match station_times !! station with
  | Some _ => station_times
  | None => <[station := 0]> station_times
  end.

(** [station_times[station]]. *)
Definition dict_get (station_times : gmap Z Z) (station : Z) : outcome Z :=
  match station_times !! station with
  | Some t => Ok t
  | None => Raise KeyError
  end.

(** The second loop, [for i, station in enumerate(solution)], entered at
    index [i] with the entries still to visit. *)
Fixpoint capacity_loop (self : AssemblyLineBalancingProblem) (i : nat)
    (solution : list Z) (station_times : gmap Z Z) : flow (gmap Z Z) :=
  match solution with
  | [] => Next station_times
  | station :: rest =>
      let st1 := setdefault station station_times in
      match dict_get st1 station with
      | Raise e => Throw e
      | Ok t =>
          match processing_time self !! i with
          | None => Throw IndexError
          | Some p =>
              let st2 := <[station := t + p]> st1 in
              match dict_get st2 station with
              | Raise e => Throw e
              | Ok t' =>
                  if t' >? cycle_time self then Return PENALTY
                  else capacity_loop self (S i) rest st2
              end
          end
      end
  end.

(** The inner loop of the third, [for j in succs]. *)
Fixpoint succs_loop (solution : list Z) (i : Z) (succs : list Z) : flow unit :=
  match succs with
  | [] => Next tt
  | j :: rest =>
      match py_getitem solution i with
      | Raise e => Throw e
      | Ok si =>
          match py_getitem solution j with
          | Raise e => Throw e
          | Ok sj =>
              if si >? sj then Return PENALTY
              else succs_loop solution i rest
          end
      end
  end.

(** The third loop, [for i, succs in self.successors.items()]. *)
Fixpoint precedence_loop (solution : list Z) (items : list (Z * list Z)) : flow unit :=
  match items with
  | [] => Next tt
  | (i, succs) :: rest =>
      match succs_loop solution i succs with
      | Next _ => precedence_loop solution rest
      | other => other
      end
  end.

Definition evaluate_solution (self : AssemblyLineBalancingProblem)
    (solution : pyobj) : outcome score :=
  match as_sequence solution with
  | None => Raise ValueError
  | Some items =>
      if negb (Z.of_nat (length items) =? nb_tasks self) then Raise ValueError
      else
        match check_stations (max_nb_stations self) items with
        | None => Ok PENALTY
        | Some sol =>
            match capacity_loop self 0 sol ∅ with
            | Return v => Ok v
            | Throw e => Raise e
            | Next _ =>
                match precedence_loop sol (successors self) with
                | Return v => Ok v
                | Throw e => Raise e
                | Next _ => Ok (Stations (size (list_to_set sol : gset Z)))
                end
            end
        end
  end.

(** ** _load_instance_from_file *)

(** [',' in pair], for the token [pair]. *)
Fixpoint has_comma (tok : string) : bool :=
  match tok with
  | EmptyString => false
  | String c rest => if Ascii.eqb c "," then true else has_comma rest
  end.

(** [pair.split(',')]: the pieces between the commas, empty ones included. *)
Fixpoint split_comma (tok : string) : list string :=
  match tok with
  | EmptyString => [EmptyString]
  | String c rest =>
      if Ascii.eqb c "," then EmptyString :: split_comma rest
      else match split_comma rest with
           | piece :: pieces => String c piece :: pieces
           | [] => [String c EmptyString]
           end
  end.

(** The [successors] dict under [if pred in d: d[pred].append(succ)] /
    [else: d[pred] = [succ]]: an existing key keeps its place, a new key goes
    to the end. *)
Fixpoint dict_append (d : list (Z * list Z)) (pred succ : Z) : list (Z * list Z) :=
  match d with
  | [] => [(pred, [succ])]
  | (k, succs) :: rest =>
      if decide (k = pred) then (k, succs ++ [succ]) :: rest
      else (k, succs) :: dict_append rest pred succ
  end.

(** Lookup in that dict. *)
Fixpoint dict_lookup (d : list (Z * list Z)) (pred : Z) : option (list Z) :=
  match d with
  | [] => None
  | (k, succs) :: rest => if decide (k = pred) then Some succs else dict_lookup rest pred
  end.

(** The order [sorted(..., key=lambda x: x[0])] sorts the items by. *)
Definition key_le (x y : Z * Z) : Prop := x.1 ≤ y.1.

Global Instance key_le_dec x y : Decision (key_le x y).
Proof. unfold key_le. apply _. Defined.

(** [[elem[1] for elem in sorted(d.items(), key=lambda x: x[0])]]. *)
Definition sorted_values (d : gmap Z Z) : list Z :=
  (merge_sort key_le (map_to_list d)).*2.

(** Code that draws tokens from [file_it]: the tokens left go in and come
    out, unless an exception is raised. *)
Definition reader (A : Type) : Type := list string → outcome (A * list string).

Global Instance reader_ret : MRet reader := λ A a toks, Ok (a, toks).
Global Instance reader_bind : MBind reader := λ A B f m toks,
  match m toks with
  | Ok (a, toks') => f a toks'
  | Raise e => Raise e
  end.

(** [next(file_it)]. *)
Definition next : reader string := λ toks,
  match toks with
  | [] => Raise StopIteration
  | tok :: rest => Ok (tok, rest)
  end.

(** [for _ in range(n): next(file_it)]. *)
Fixpoint skip (n : nat) : reader unit :=
  match n with
  | O => mret tt
  | S n' => next ;; skip n'
  end.

Section Loader.

(** Python's [int] on a [str]: [None] stands for [ValueError]. *)
Variable py_int : string → option Z.

(** [int(tok)]. *)
Definition to_int (tok : string) : reader Z := λ toks,
  match py_int tok with
  | Some z => Ok (z, toks)
  | None => Raise ValueError
  end.

(** [for _ in range(n)] over the processing-time pairs. *)
Fixpoint read_times (n : nat) (processing_time_dict : gmap Z Z) : reader (gmap Z Z) :=
  match n with
  | O => mret processing_time_dict
  | S n' =>
      tok ← next;
      number ← to_int tok;
      let task := number - 1 in
      tok' ← next;
      time ← to_int tok';
      read_times n' (<[task := time]> processing_time_dict)
  end.

(** The [while True] loop, over the tokens [file_it] still holds: the
    [StopIteration] of [next] is caught and ends the loop. *)
Fixpoint scan_precedences (toks : list string) (succs : list (Z * list Z))
    : outcome (list (Z * list Z)) :=
  match toks with
  | [] => Ok succs
  | tok :: rest =>
      if has_comma tok then
        match split_comma tok with
        | [pred; succ] =>
            match py_int pred with
            | None => Raise ValueError
            | Some p =>
                match py_int succ with
                | None => Raise ValueError
                | Some s => scan_precedences rest (dict_append succs (p - 1) (s - 1))
                end
            end
        | _ => Raise ValueError
        end
      else scan_precedences rest succs
  end.

(** The method, from [tokens = f.read().split()] on; the resolution of the
    path and the reading of the file come before and are not modelled. *)
Definition _load_instance_from_file (tokens : list string)
    : outcome AssemblyLineBalancingProblem :=
  let header : reader (Z * Z * list Z) :=
    skip 3;;
    tok ← next;
    n ← to_int tok;
    skip 2;;
    tok' ← next;
    c ← to_int tok';
    skip 5;;
    d ← read_times (Z.to_nat n) ∅;
    skip 2;;
    mret (n, c, sorted_values d) in
  match header tokens with
  | Raise e => Raise e
  | Ok ((n, c, times), rest) =>
      match scan_precedences rest [] with
      | Raise e => Raise e
      | Ok succs =>
          Ok {| nb_tasks := n; max_nb_stations := n; cycle_time := c;
                processing_time := times; successors := succs |}
      end
  end.

End Loader.

(** [int] on tokens of ASCII characters: an optional sign, then decimal
    digits, single underscores allowed between digits. *)
Definition digit_of (c : ascii) : option Z :=
  let n := Z.of_nat (nat_of_ascii c) in
  if (48 <=? n) && (n <=? 57) then Some (n - 48) else None.

Fixpoint digits (acc : Z) (after_digit : bool) (s : string) : option Z :=
  match s with
  | EmptyString => if after_digit then Some acc else None
  | String c rest =>
      if Ascii.eqb c "_" then
        if after_digit then digits acc false rest else None
      else
        match digit_of c with
        | Some d => digits (10 * acc + d) true rest
        | None => None
        end
  end.

Definition ascii_int (s : string) : option Z :=
  match s with
  | String "-" rest => Z.opp <$> digits 0 false rest
  | String "+" rest => digits 0 false rest
  | _ => digits 0 false s
  end.

(** ** Vocabulary of the properties *)

(** The total processing time of the tasks that [sol] puts on [station];
    task [i] has the [i]-th entry of [times]. *)
Fixpoint station_load (times sol : list Z) (station : Z) : Z :=
  match sol, times with
  | s :: sol', p :: times' =>
      (if decide (s = station) then p else 0) + station_load times' sol' station
  | _, _ => 0
  end.

(** [solution] is a list or tuple of [nb_tasks] entries, each an [int] in
    [0, max_nb_stations); [sol] holds their values. *)
Definition valid_assignment (self : AssemblyLineBalancingProblem)
    (solution : pyobj) (sol : list Z) : Prop :=
  ∃ items,
    as_sequence solution = Some items ∧
    Z.of_nat (length items) = nb_tasks self ∧
    Forall2 (λ x z, as_int x = Some z) items sol ∧
    Forall (λ z, 0 ≤ z < max_nb_stations self) sol.

(** An entry the first loop rejects. *)
Definition bad_station (max_nb : Z) (s : pyobj) : Prop :=
  match as_int s with
  | None => True
  | Some z => z < 0 ∨ max_nb ≤ z
  end.

(** [(p, s)] is a precedence pair recorded in [successors]. *)
Definition recorded (self : AssemblyLineBalancingProblem) (p s : Z) : Prop :=
  ∃ succs, (p, succs) ∈ successors self ∧ s ∈ succs.

(** Task [p] sits on a station strictly after the station of task [s]. *)
Definition placed_after (sol : list Z) (p s : Z) : Prop :=
  ∃ a b, sol !! Z.to_nat p = Some a ∧ sol !! Z.to_nat s = Some b ∧ a > b.

(** The data-model invariants of an instance. *)
Definition times_cover (self : AssemblyLineBalancingProblem) : Prop :=
  Z.of_nat (length (processing_time self)) = nb_tasks self.

Definition times_nonneg (self : AssemblyLineBalancingProblem) : Prop :=
  Forall (λ p, 0 ≤ p) (processing_time self).

Definition task_index (self : AssemblyLineBalancingProblem) (i : Z) : Prop :=
  0 ≤ i < nb_tasks self.

Definition successors_in_range (self : AssemblyLineBalancingProblem) : Prop :=
  Forall (λ entry, task_index self entry.1 ∧ Forall (task_index self) entry.2)
         (successors self).

(** No station is loaded beyond the cycle time. *)
Definition capacity_respected (self : AssemblyLineBalancingProblem) (sol : list Z) : Prop :=
  ∀ station, station ∈ sol →
    station_load (processing_time self) sol station ≤ cycle_time self.

(** No recorded pair is out of order. *)
Definition precedence_respected (self : AssemblyLineBalancingProblem) (sol : list Z) : Prop :=
  ∀ p s, recorded self p s → ¬ placed_after sol p s.

(** The time a station has accumulated so far in [station_times]. *)
Definition acc (station_times : gmap Z Z) (station : Z) : Z :=
  default 0 (station_times !! station).

(** ** Vocabulary of the loader's properties *)

Section LoaderVocabulary.
Variable py_int : string → option Z.

(** The (task number, time) pairs a run of tokens lists, two tokens each. *)
Fixpoint parse_pairs (toks : list string) : option (list (Z * Z)) :=
  match toks with
  | [] => Some []
  | a :: b :: rest =>
      match py_int a, py_int b, parse_pairs rest with
      | Some number, Some time, Some ps => Some ((number, time) :: ps)
      | _, _, _ => None
      end
  | _ => None
  end.

(** The pair a token of the form "pred,succ" denotes, as numbered in the
    file. *)
Definition parse_pair (tok : string) : option (Z * Z) :=
  match split_comma tok with
  | [a; b] =>
      match py_int a, py_int b with
      | Some p, Some s => Some (p, s)
      | _, _ => None
      end
  | _ => None
  end.

(** The pairs denoted by the tokens that contain a comma, in order; [None]
    when one of these tokens does not denote a pair. *)
Definition comma_pairs (toks : list string) : option (list (Z * Z)) :=
  mapM parse_pair (filter (λ tok, has_comma tok = true) toks).

(** The tokens are made of the mandatory fields and of [rest]: three
    tokens, the task count [n], two tokens, the cycle time [c], five tokens,
    the pairs of numbers [ps], one per task, and two tokens. *)
Definition instance_file (tokens : list string) (n c : Z) (ps : list (Z * Z))
    (rest : list string) : Prop :=
  ∃ hdr tn gap tc pad ptoks tail,
    tokens = hdr ++ tn :: gap ++ tc :: pad ++ ptoks ++ tail ++ rest ∧
    length hdr = 3%nat ∧ length gap = 2%nat ∧ length pad = 5%nat ∧
    length tail = 2%nat ∧
    py_int tn = Some n ∧ py_int tc = Some c ∧
    parse_pairs ptoks = Some ps ∧ length ps = Z.to_nat n.

(** Every mandatory field is there and every mandatory number parses. *)
Definition mandatory_fields (tokens : list string) : Prop :=
  ∃ n c ps rest, instance_file tokens n c ps rest.
End LoaderVocabulary.

(** The successors, numbered from 0, that the pairs give to task [k]. *)
Definition successors_of (ps : list (Z * Z)) (k : Z) : list Z :=
  (λ ps, ps.2 - 1) <$> filter (λ ps, ps.1 - 1 = k) ps.

(** The dict [processing_time_dict] after the pairs [ps] were stored in it. *)
Definition store_times (ps : list (Z * Z)) (d : gmap Z Z) : gmap Z Z :=
  foldl (λ d ps, <[ps.1 - 1 := ps.2]> d) d ps.

(** The dict [successors] after the pairs [ps] were recorded in it. *)
Definition record_pairs (ps : list (Z * Z)) (d : list (Z * list Z)) : list (Z * list Z) :=
  foldl (λ d ps, dict_append d (ps.1 - 1) (ps.2 - 1)) d ps.

(** ** Sample instances and files *)

(** The scenario of three tasks: task 0 precedes task 2. *)
Definition scenario : AssemblyLineBalancingProblem :=
  {| nb_tasks := 3; max_nb_stations := 3; cycle_time := 10;
     processing_time := [4; 5; 3]; successors := [(0, [2])] |}.

(** The same tasks with a cycle time that tasks 0 and 1 fill exactly. *)
Definition tight : AssemblyLineBalancingProblem :=
  {| nb_tasks := 3; max_nb_stations := 3; cycle_time := 9;
     processing_time := [4; 5; 3]; successors := [(0, [2])] |}.

(** Four tasks that may be spread over six stations. *)
Definition spread : AssemblyLineBalancingProblem :=
  {| nb_tasks := 4; max_nb_stations := 6; cycle_time := 10;
     processing_time := [4; 5; 3; 2]; successors := [(0, [2])] |}.

(** An instance of [n] tasks of no duration and no precedence pair. *)
Definition idle_tasks (n : Z) : AssemblyLineBalancingProblem :=
  {| nb_tasks := n; max_nb_stations := n; cycle_time := 1;
     processing_time := replicate (Z.to_nat n) 0; successors := [] |}.

(** What follows the mandatory fields in the sample file. *)
Definition sample_rest : list string := ["1,3"; "junk"; "2,3"; "1,2"]%string.

(** An instance file, as tokens: three tasks listed as 3, 1, 2, then the
    precedence pairs among other tokens. *)
Definition sample_tokens : list string :=
  ["a"; "b"; "c"; "3"; "d"; "e"; "10"; "f"; "g"; "h"; "i"; "j";
   "3"; "3"; "1"; "4"; "2"; "5"; "k"; "l"]%string ++ sample_rest.

(** ** __init__ and random_solution *)

Section Constructor.
Variable py_int : string → option Z.

(** The constructor. [instance_file] stands for the tokens of the file the
    path names, [None] for no path; the other arguments are [None] when they
    are left out. *)
Definition __init__ (instance_file : option (list string))
    (nb_tasks max_nb_stations cycle_time : option Z)
    (processing_time : option (list Z)) (successors : option (list (Z * list Z)))
    : outcome AssemblyLineBalancingProblem :=
  match instance_file with
  | Some tokens => _load_instance_from_file py_int tokens
  | None =>
      match nb_tasks, max_nb_stations, cycle_time, processing_time, successors with
      | Some n, Some m, Some c, Some times, Some succs =>
          Ok (Build_AssemblyLineBalancingProblem n m c times succs)
      | _, _, _, _, _ => Raise ValueError
      end
  end.
End Constructor.

Section Random.
(** The generator behind the [random] module: its state, and
    [_randbelow(n)], which draws from [0, n) and moves the state on. *)
Variable rng : Type.
Variable randbelow : Z → rng → Z * rng.

(** [random.randint(a, b)], that is [randrange(a, b + 1)]: [ValueError] on an
    empty range. *)
Definition randint (a b : Z) (g : rng) : outcome (Z * rng) :=
  let width := b + 1 - a in
  if 0 <? width then
    let (r, g') := randbelow width g in Ok (a + r, g')
  else Raise ValueError.

(** The list comprehension of [random_solution], over the [n] values of
    [range(self.nb_tasks)] still to come. *)
Fixpoint draw_stations (max_nb : Z) (n : nat) (g : rng) : outcome (list Z * rng) :=
  match n with
  | O => Ok ([], g)
  | S n' =>
      match randint 0 (max_nb - 1) g with
      | Raise e => Raise e
      | Ok (station, g') =>
          match draw_stations max_nb n' g' with
          | Raise e => Raise e
          | Ok (rest, g'') => Ok (station :: rest, g'')
          end
      end
  end.

Definition random_solution (self : AssemblyLineBalancingProblem) (g : rng)
    : outcome (list Z * rng) :=
  draw_stations (max_nb_stations self) (Z.to_nat (nb_tasks self)) g.
End Random.

(** A generator for the examples: a linear congruential one. *)
Definition lcg_randbelow (n : Z) (g : Z) : Z * Z :=
  (g `mod` n, (1103515245 * g + 12345) `mod` 2147483648).

(** ** Further vocabulary *)

(** The list [solution] is, item by item, a Python list of [int]s. *)
Definition int_list (sol : list Z) : pyobj := PyList (PyInt <$> sol).

(** Some task brings the running total of its station above the cycle
    time. *)
Definition running_overload (self : AssemblyLineBalancingProblem) (sol : list Z) : Prop :=
  ∃ (m : nat) station,
    sol !! m = Some station ∧
    station_load (processing_time self) (take (S m) sol) station > cycle_time self.

(** Some station is loaded beyond the cycle time. *)
Definition overloaded (self : AssemblyLineBalancingProblem) (sol : list Z) : Prop :=
  ∃ station, station ∈ sol ∧
    station_load (processing_time self) sol station > cycle_time self.

(** Some recorded pair is out of order. *)
Definition out_of_order (self : AssemblyLineBalancingProblem) (sol : list Z) : Prop :=
  ∃ p s, recorded self p s ∧ placed_after sol p s.

(** The sum of a list of times. *)
Definition total_time (times : list Z) : Z := foldr Z.add 0 times.

(** The index [l[i]] reads for [i] in [-n, 0) when [l] has [n] entries. *)
Definition wrap_index (n i : Z) : Z :=
  if (i <? 0) && (- n <=? i) then i + n else i.

(** The instance with the negative indices of [successors] written as the
    indices Python reads for them. *)
Definition wrap_successors (self : AssemblyLineBalancingProblem)
    : AssemblyLineBalancingProblem :=
  {| nb_tasks := nb_tasks self; max_nb_stations := max_nb_stations self;
     cycle_time := cycle_time self; processing_time := processing_time self;
     successors :=
       (λ entry : Z * list Z,
          (wrap_index (nb_tasks self) entry.1,
           wrap_index (nb_tasks self) <$> entry.2)) <$> successors self |}.

(** The time the pairs record last for task number [number]. *)
Definition last_time (ps : list (Z * Z)) (number : Z) : option Z :=
  last (filter (λ ps, ps.1 = number) ps).*2.

(** The token [a,b]. *)
Definition comma_joined (a b : string) : string :=
  String.append a (String "," b).

(** ** Further sample instances and files *)

(** Two tasks, the second of negative duration: together they fit the cycle
    time, the first alone does not. *)
Definition dip : AssemblyLineBalancingProblem :=
  {| nb_tasks := 2; max_nb_stations := 2; cycle_time := 3;
     processing_time := [5; -2]; successors := [] |}.

(** Three tasks, of which the last has no processing time. *)
Definition short_times : AssemblyLineBalancingProblem :=
  {| nb_tasks := 3; max_nb_stations := 3; cycle_time := 10;
     processing_time := [4; 5]; successors := [] |}.

(** A file of three pairs that lists task 5 twice and no task 1, 3 or 4. *)
Definition gappy_tokens : list string :=
  ["a"; "b"; "c"; "3"; "d"; "e"; "10"; "f"; "g"; "h"; "i"; "j";
   "5"; "7"; "2"; "4"; "5"; "9"; "k"; "l"]%string.

(** The sample file under another header and other skipped tokens. *)
Definition sample_tokens_relabelled : list string :=
  ["x"; "y"; "z"; "3"; "1,2"; "9"; "10"; "1"; "2"; "3"; "4"; "5";
   "3"; "3"; "1"; "4"; "2"; "5"; "8,9"; "w"]%string ++ sample_rest.

(** ** The trailing tokens, as the file means them *)

(** The token holds no comma. *)
Definition comma_free (tok : string) : Prop :=
  Forall (λ ch, ch ≠ ","%char) (list_ascii_of_string tok).

(** A trailing token: some word that is no precedence pair, or the pair
    written [pred,succ]. *)
Inductive trailing :=
| Word (tok : string)
| Pair (pred succ : string).

(** The token as it stands in the file. *)
Definition token_of (t : trailing) : string :=
  match t with
  | Word tok => tok
  | Pair pred succ => comma_joined pred succ
  end.

Section TrailingTokens.
Variable py_int : string → option Z.

(** A word has no comma; the two sides of a pair have none either and are
    integers for [int]. *)
Definition trailing_ok (t : trailing) : Prop :=
  match t with
  | Word tok => comma_free tok
  | Pair pred succ =>
      comma_free pred ∧ comma_free succ ∧
      is_Some (py_int pred) ∧ is_Some (py_int succ)
  end.

(** The numbers of a pair, as the file numbers the tasks. *)
Definition pair_of (t : trailing) : option (Z * Z) :=
  match t with
  | Word _ => None
  | Pair pred succ =>
      match py_int pred, py_int succ with
      | Some p, Some s => Some (p, s)
      | _, _ => None
      end
  end.

(** The pairs among the trailing tokens, in the order of the file. *)
Definition pairs_of (ts : list trailing) : list (Z * Z) := omap pair_of ts.

(** The token is a pair written [pred,succ]. *)
Definition denotes_pair (tok : string) : Prop :=
  ∃ pred succ, tok = comma_joined pred succ ∧ trailing_ok (Pair pred succ).
End TrailingTokens.

(** ** Tactics *)

(** Unfolds the plumbing of [reader]. *)
Ltac reader_unfold :=
  unfold mbind, reader_bind, mret, reader_ret, to_int in *.

(** ** Properties of evaluate_solution *)

Section Validity.
Variable max_nb : Z.

Lemma check_stations_valid items sol :
  Forall2 (λ x z, as_int x = Some z) items sol →
  Forall (λ z, 0 ≤ z < max_nb) sol →
  check_stations max_nb items = Some sol.
Proof.
  induction 1 as [|x z items sol Hx _ IH]; intros Hr; [done|].
  apply Forall_cons in Hr as [Hz Hr]. simpl. rewrite Hx.
  destruct (z <? 0) eqn:E1; [lia|].
  destruct (z >=? max_nb) eqn:E2; [lia|].
  simpl. by rewrite IH.
Qed.

Lemma check_stations_bad items :
  Exists (bad_station max_nb) items → check_stations max_nb items = None.
Proof.
  induction items as [|x items IH]; intros H; [by apply Exists_nil in H|].
  simpl. unfold bad_station in H.
  destruct (as_int x) as [z|] eqn:Hx; [|done].
  destruct (z <? 0) eqn:E1; [done|].
  destruct (z >=? max_nb) eqn:E2; [done|]. simpl.
  apply Exists_cons in H as [H|H].
  - rewrite Hx in H. lia.
  - by rewrite IH.
Qed.

Lemma check_stations_length items sol :
  check_stations max_nb items = Some sol → length sol = length items.
Proof.
  revert sol. induction items as [|x items IH]; intros sol; simpl.
  - by intros [= <-].
  - destruct (as_int x) as [z|]; [|done].
    destruct ((z <? 0) || (z >=? max_nb)); [done|].
    destruct (check_stations max_nb items) as [sol'|]; [|done].
    intros [= <-]. simpl. f_equal. by apply IH.
Qed.
End Validity.

Section Capacity.
Variable self : AssemblyLineBalancingProblem.

Lemma acc_update st s v k :
  acc (<[s := v]> (setdefault s st)) k = if decide (k = s) then v else acc st k.
Proof.
  unfold acc, setdefault. destruct (decide (k = s)) as [->|Hne].
  - by rewrite lookup_insert_eq.
  - rewrite lookup_insert_ne by done.
    destruct (st !! s); [done|]. by rewrite lookup_insert_ne.
Qed.

Lemma capacity_loop_cons i s rest st :
  capacity_loop self i (s :: rest) st =
  match processing_time self !! i with
  | None => Throw IndexError
  | Some p =>
      if acc st s + p >? cycle_time self then Return PENALTY
      else capacity_loop self (S i) rest (<[s := acc st s + p]> (setdefault s st))
  end.
Proof.
  simpl. unfold dict_get, acc.
  assert (setdefault s st !! s = Some (default 0 (st !! s))) as ->.
  { unfold setdefault. destruct (st !! s) eqn:E; simpl; [done|].
    by rewrite lookup_insert_eq. }
  destruct (processing_time self !! i); [|done].
  by rewrite lookup_insert_eq.
Qed.

Lemma station_load_unused times sol k : k ∉ sol → station_load times sol k = 0.
Proof.
  revert times. induction sol as [|s sol IH]; intros times Hk; [by destruct times|].
  apply not_elem_of_cons in Hk as [Hne Hk]. destruct times as [|p times]; [done|].
  simpl. rewrite (IH _ Hk). destruct (decide (s = k)); [congruence|lia].
Qed.

Lemma station_load_nonneg times sol k :
  Forall (λ p, 0 ≤ p) times → 0 ≤ station_load times sol k.
Proof.
  intros H. revert sol. induction H as [|p times Hp _ IH]; intros [|s sol]; simpl; try lia.
  specialize (IH sol). destruct (decide (s = k)); lia.
Qed.

(** A loop that runs to its end has summed the loads, and every station it
    touched is within the cycle time. *)
Lemma capacity_loop_Next sol : ∀ i st st',
  capacity_loop self i sol st = Next st' →
  (∀ k, acc st' k = acc st k + station_load (drop i (processing_time self)) sol k) ∧
  (∀ k, k ∈ sol → acc st' k ≤ cycle_time self).
Proof.
  induction sol as [|s sol IH]; intros i st st'.
  - intros [= <-]. split; [|by intros k ?%elem_of_nil].
    intros k. destruct (drop i _); simpl; lia.
  - rewrite capacity_loop_cons.
    destruct (processing_time self !! i) as [p|] eqn:Hp; [|done].
    destruct (acc st s + p >? cycle_time self) eqn:Hc; [done|].
    intros H. apply IH in H as [Hsum Hle].
    rewrite (drop_S _ _ _ Hp). split.
    + intros k. rewrite Hsum, acc_update. simpl.
      destruct (decide (k = s)) as [->|]; destruct (decide _); try congruence; lia.
    + intros k Hk. destruct (decide (k ∈ sol)) as [|Hnot]; [by apply Hle|].
      apply elem_of_cons in Hk as [->|]; [|done].
      rewrite Hsum, acc_update, (station_load_unused _ _ _ Hnot).
      rewrite decide_True by done. lia.
Qed.

(** With a processing time for every task, the loop ends or returns the
    penalty; it does not raise. *)
Lemma capacity_loop_total sol : ∀ i st,
  (i + length sol ≤ length (processing_time self))%nat →
  capacity_loop self i sol st = Return PENALTY ∨
  ∃ st', capacity_loop self i sol st = Next st'.
Proof.
  induction sol as [|s sol IH]; intros i st Hlen; [right; by eexists|].
  rewrite capacity_loop_cons. simpl in Hlen.
  destruct (lookup_lt_is_Some_2 (processing_time self) i) as [p ->]; [lia|].
  destruct (_ >? _); [by left|]. apply IH. lia.
Qed.

Lemma capacity_loop_pass sol : ∀ i st,
  (i + length sol ≤ length (processing_time self))%nat →
  Forall (λ p, 0 ≤ p) (drop i (processing_time self)) →
  (∀ k, k ∈ sol →
     acc st k + station_load (drop i (processing_time self)) sol k ≤ cycle_time self) →
  ∃ st', capacity_loop self i sol st = Next st'.
Proof.
  induction sol as [|s sol IH]; intros i st Hlen Hpos Hcap; [by eexists|].
  rewrite capacity_loop_cons. simpl in Hlen.
  destruct (lookup_lt_is_Some_2 (processing_time self) i) as [p Hp]; [lia|].
  rewrite Hp. rewrite (drop_S _ _ _ Hp) in Hpos, Hcap.
  apply Forall_cons in Hpos as [Hp0 Hpos].
  pose proof (Hcap s) as Hs. simpl in Hs. rewrite decide_True in Hs by done.
  pose proof (station_load_nonneg _ sol s Hpos).
  destruct (_ >? _) eqn:Hc; [specialize (Hs ltac:(left)); lia|].
  apply IH; [lia|done|]. intros k Hk. rewrite acc_update.
  specialize (Hcap k ltac:(by right)). simpl in Hcap.
  destruct (decide (k = s)) as [->|]; destruct (decide _); try congruence; lia.
Qed.
End Capacity.

Section Precedence.
Variable self : AssemblyLineBalancingProblem.
Variable sol : list Z.
Hypothesis Hlen : Z.of_nat (length sol) = nb_tasks self.

Lemma py_getitem_task i :
  task_index self i → ∃ a, sol !! Z.to_nat i = Some a ∧ py_getitem sol i = Ok a.
Proof.
  unfold task_index, py_getitem. intros Hi.
  destruct (lookup_lt_is_Some_2 sol (Z.to_nat i)) as [a Ha]; [lia|].
  exists a. split; [done|].
  destruct (i <? 0) eqn:E; [lia|]. rewrite E. by rewrite Ha.
Qed.

(** The inner loop returns the penalty exactly when a successor of [i] is
    out of order; otherwise it runs to its end. *)
Lemma succs_loop_spec i succs :
  task_index self i → Forall (task_index self) succs →
  (succs_loop sol i succs = Return PENALTY ∧ ∃ j, j ∈ succs ∧ placed_after sol i j) ∨
  (succs_loop sol i succs = Next tt ∧ ∀ j, j ∈ succs → ¬ placed_after sol i j).
Proof.
  intros Hi. induction 1 as [|j succs Hj _ IH].
  - right. split; [done|]. by intros j ?%elem_of_nil.
  - simpl. destruct (py_getitem_task i Hi) as (a & Ha & ->).
    destruct (py_getitem_task j Hj) as (b & Hb & ->).
    destruct (a >? b) eqn:E.
    + left. split; [done|]. exists j. split; [by left|].
      exists a, b. repeat split; [done..|lia].
    + destruct IH as [[-> (j' & Hin & Hv)]|[-> Hok]].
      * left. split; [done|]. exists j'. split; [by right|done].
      * right. split; [done|]. intros j' [->|Hin]%elem_of_cons; [|by apply Hok].
        intros (a' & b' & Ha' & Hb' & Hgt). simplify_eq. lia.
Qed.

Lemma precedence_loop_spec items :
  Forall (λ entry, task_index self entry.1 ∧ Forall (task_index self) entry.2) items →
  (precedence_loop sol items = Return PENALTY ∧
     ∃ p succs j, (p, succs) ∈ items ∧ j ∈ succs ∧ placed_after sol p j) ∨
  (precedence_loop sol items = Next tt ∧
     ∀ p succs j, (p, succs) ∈ items → j ∈ succs → ¬ placed_after sol p j).
Proof.
  induction 1 as [|[p succs] items [Hp Hs] _ IH]; simpl in *.
  - right. split; [done|]. by intros p succs j ?%elem_of_nil.
  - destruct (succs_loop_spec p succs Hp Hs) as [[-> (j & Hin & Hv)]|[-> Hok]].
    + left. split; [done|]. exists p, succs, j. split; [by left|done].
    + destruct IH as [[-> (p' & succs' & j & Hin & Hj & Hv)]|[-> Hok']].
      * left. split; [done|]. exists p', succs', j. split; [by right|done].
      * right. split; [done|].
        intros p' succs' j [[= -> ->]|Hin]%elem_of_cons Hj; [by apply Hok|].
        by eapply Hok'.
Qed.
End Precedence.

(** The count of distinct entries is the size of the set of entries. *)
Lemma size_set_distinct (sol : list Z) :
  size (list_to_set sol : gset Z) = length (remove_dups sol).
Proof.
  rewrite <- (size_list_to_set (C := gset Z) (remove_dups sol)) by apply NoDup_remove_dups.
  f_equal. apply set_eq. intros x.
  by rewrite !elem_of_list_to_set, elem_of_remove_dups.
Qed.

Lemma distinct_le_length (sol : list Z) : (length (remove_dups sol) ≤ length sol)%nat.
Proof.
  induction sol as [|x sol IH]; simpl; [lia|].
  destruct (decide_rel _ x sol); simpl; lia.
Qed.

Lemma distinct_pos (sol : list Z) : sol ≠ [] → (1 ≤ length (remove_dups sol))%nat.
Proof.
  intros Hne. destruct (remove_dups sol) as [|y l] eqn:E; simpl; [|lia].
  destruct sol as [|x sol]; [done|].
  assert (x ∈ remove_dups (x :: sol)) as Hx by (apply elem_of_remove_dups; by left).
  rewrite E in Hx. by apply elem_of_nil in Hx.
Qed.

(** Unfolding of the function once the first loop has passed. *)
Lemma evaluate_solution_checked self solution items sol :
  as_sequence solution = Some items →
  Z.of_nat (length items) = nb_tasks self →
  check_stations (max_nb_stations self) items = Some sol →
  Z.of_nat (length sol) = nb_tasks self ∧
  evaluate_solution self solution =
    match capacity_loop self 0 sol ∅ with
    | Return v => Ok v
    | Throw e => Raise e
    | Next _ =>
        match precedence_loop sol (successors self) with
        | Return v => Ok v
        | Throw e => Raise e
        | Next _ => Ok (Stations (size (list_to_set sol : gset Z)))
        end
    end.
Proof.
  intros Hseq Hlen Hchk. split.
  - rewrite (check_stations_length _ _ _ Hchk). lia.
  - unfold evaluate_solution. rewrite Hseq.
    rewrite (proj2 (Z.eqb_eq _ _) Hlen). simpl. by rewrite Hchk.
Qed.

Lemma evaluate_solution_valid self solution sol :
  valid_assignment self solution sol →
  Z.of_nat (length sol) = nb_tasks self ∧
  evaluate_solution self solution =
    match capacity_loop self 0 sol ∅ with
    | Return v => Ok v
    | Throw e => Raise e
    | Next _ =>
        match precedence_loop sol (successors self) with
        | Return v => Ok v
        | Throw e => Raise e
        | Next _ => Ok (Stations (size (list_to_set sol : gset Z)))
        end
    end.
Proof.
  intros (items & Hseq & Hlen & Hval & Hrange).
  eapply evaluate_solution_checked; [done..|].
  by apply check_stations_valid.
Qed.

(** On a valid assignment the function does not raise once every task has a
    processing time and [successors] names tasks only: it returns the penalty
    when a station is overloaded on the way or a pair is out of order, and the
    count of stations otherwise. *)
Lemma evaluate_solution_cases self solution sol :
  times_cover self → successors_in_range self →
  valid_assignment self solution sol →
  (evaluate_solution self solution = Ok PENALTY ∧
     (capacity_loop self 0 sol ∅ = Return PENALTY ∨
      ∃ p s, recorded self p s ∧ placed_after sol p s)) ∨
  (evaluate_solution self solution = Ok (Stations (length (remove_dups sol))) ∧
     capacity_respected self sol ∧ precedence_respected self sol).
Proof.
  intros Hcov Hsucc Hval.
  destruct (evaluate_solution_valid _ _ _ Hval) as [Hlen ->].
  unfold times_cover in Hcov.
  destruct (capacity_loop_total self sol 0%nat ∅) as [->|[st' Hst]]; [lia|left; auto|].
  rewrite Hst. apply capacity_loop_Next in Hst as [Hsum Hle].
  destruct (precedence_loop_spec self sol Hlen _ Hsucc)
    as [[-> (p & succs & j & Hin & Hj & Hv)]|[-> Hok]].
  - left. split; [done|]. right. exists p, j. split; [by exists succs|done].
  - right. rewrite size_set_distinct. split; [done|]. split.
    + intros k Hk. specialize (Hle k Hk). rewrite Hsum in Hle.
      rewrite drop_0 in Hle. unfold acc in Hle. rewrite lookup_empty in Hle.
      simpl in Hle. lia.
    + intros p s (succs & Hin & Hs). by eapply Hok.
Qed.

(** C1. On an instance that satisfies the data-model invariants, an assignment
    that is a list or tuple of [nb_tasks] valid station indices, loads no
    station beyond the cycle time and puts no recorded pair out of order is
    scored with the number of distinct station indices occurring in it. *)
Theorem objective_counts_distinct_stations self solution sol :
  times_cover self → times_nonneg self → successors_in_range self →
  valid_assignment self solution sol →
  capacity_respected self sol →
  precedence_respected self sol →
  evaluate_solution self solution = Ok (Stations (length (remove_dups sol))).
Proof.
  intros Hcov Hpos Hsucc Hval Hcap Hprec.
  destruct (evaluate_solution_cases _ _ _ Hcov Hsucc Hval)
    as [[_ [Hpen|(p & s & Hrec & Hv)]]|[H _]]; [|by destruct (Hprec p s)|done].
  destruct (evaluate_solution_valid _ _ _ Hval) as [Hlen _].
  unfold times_cover in Hcov.
  destruct (capacity_loop_pass self sol 0%nat ∅) as [st' Hst]; [lia|by rewrite drop_0| |congruence].
  intros k Hk. rewrite drop_0. unfold acc. rewrite lookup_empty. simpl.
  specialize (Hcap k Hk). lia.
Qed.

Lemma out_of_order_penalty self solution sol p s :
  times_cover self → successors_in_range self →
  valid_assignment self solution sol →
  recorded self p s → placed_after sol p s →
  evaluate_solution self solution = Ok PENALTY.
Proof.
  intros Hcov Hsucc Hval Hrec Hv.
  destruct (evaluate_solution_cases _ _ _ Hcov Hsucc Hval)
    as [[H _]|(_ & _ & Hprec)]; [done|].
  by destruct (Hprec p s).
Qed.

(** C2. On an instance that satisfies the data-model invariants, a valid
    assignment that puts some recorded pair [(p, s)] out of order, task [p] on
    a later station than task [s], is scored with the penalty. *)
Theorem precedence_violation_penalised self solution sol :
  times_cover self → successors_in_range self →
  valid_assignment self solution sol →
  (∃ p s, recorded self p s ∧ placed_after sol p s) →
  evaluate_solution self solution = Ok PENALTY.
Proof.
  intros Hcov Hsucc Hval (p & s & Hrec & Hv). by eapply out_of_order_penalty.
Qed.

(** C3. On an instance that satisfies the data-model invariants and a valid
    assignment: a station whose load exceeds the cycle time makes the score
    the penalty; a station whose load equals the cycle time does not, for
    when no other station exceeds it the score is the penalty only if a
    recorded pair is out of order. *)
Theorem capacity_boundary self solution sol :
  times_cover self → 0 < cycle_time self →
  valid_assignment self solution sol →
  (∀ station,
     station_load (processing_time self) sol station > cycle_time self →
     evaluate_solution self solution = Ok PENALTY) ∧
  (times_nonneg self → successors_in_range self →
   ∀ station,
     station_load (processing_time self) sol station = cycle_time self →
     (∀ k, k ≠ station →
        station_load (processing_time self) sol k ≤ cycle_time self) →
     (evaluate_solution self solution = Ok PENALTY ↔
      ∃ p s, recorded self p s ∧ placed_after sol p s)).
Proof.
  intros Hcov Hcycle Hval.
  destruct (evaluate_solution_valid _ _ _ Hval) as [Hlen Heval].
  unfold times_cover in Hcov. split.
  - intros k Hover. rewrite Heval.
    destruct (decide (k ∈ sol)) as [Hk|Hk];
      [|rewrite (station_load_unused _ _ _ Hk) in Hover; lia].
    destruct (capacity_loop_total self sol 0%nat ∅) as [->|[st' Hst]]; [lia|done|].
    apply capacity_loop_Next in Hst as [Hsum Hle].
    specialize (Hle k Hk). rewrite Hsum, drop_0 in Hle.
    unfold acc in Hle. rewrite lookup_empty in Hle. simpl in Hle. lia.
  - intros Hpos Hsucc k Heq Hothers.
    assert (capacity_respected self sol) as Hcap.
    { intros k' _. destruct (decide (k' = k)) as [->|Hne]; [lia|by apply Hothers]. }
    split.
    + intros Hpen.
      destruct (evaluate_solution_cases _ _ _ Hcov Hsucc Hval)
        as [[_ [Hret|Hv]]|[H _]]; [|done|by rewrite Hpen in H].
      destruct (capacity_loop_pass self sol 0%nat ∅) as [st' Hst];
        [lia|by rewrite drop_0| |congruence].
      intros k' Hk'. rewrite drop_0. unfold acc. rewrite lookup_empty. simpl.
      specialize (Hcap k' Hk'). lia.
    + intros (p & s & Hrec & Hv).
      by eapply out_of_order_penalty.
Qed.

(** C4. A list or tuple of [nb_tasks] entries of which one is not an [int],
    or is negative, or is [max_nb_stations] or more, is scored with the
    penalty without an exception, whatever the processing times, the cycle
    time and the precedence pairs of the instance are. *)
Theorem invalid_station_penalised self solution items :
  as_sequence solution = Some items →
  Z.of_nat (length items) = nb_tasks self →
  Exists (bad_station (max_nb_stations self)) items →
  evaluate_solution self solution = Ok PENALTY ∧
  ∀ c times succs,
    evaluate_solution
      {| nb_tasks := nb_tasks self; max_nb_stations := max_nb_stations self;
         cycle_time := c; processing_time := times; successors := succs |}
      solution = Ok PENALTY.
Proof.
  intros Hseq Hlen Hbad.
  assert (∀ self', nb_tasks self' = nb_tasks self →
            max_nb_stations self' = max_nb_stations self →
            evaluate_solution self' solution = Ok PENALTY) as H.
  { intros self' Hn Hm. unfold evaluate_solution. rewrite Hseq, Hn, Hm.
    rewrite (proj2 (Z.eqb_eq _ _) Hlen). simpl.
    by rewrite check_stations_bad. }
  split; [by apply H|]. intros c times succs. by apply H.
Qed.

(** C5. An input that is not a list or tuple, or whose length is not
    [nb_tasks], makes the function raise [ValueError]; no score is returned. *)
Theorem bad_shape_raises self solution :
  (as_sequence solution = None ∨
   ∃ items, as_sequence solution = Some items ∧
            Z.of_nat (length items) ≠ nb_tasks self) →
  evaluate_solution self solution = Raise ValueError.
Proof.
  unfold evaluate_solution. intros [->|(items & -> & Hlen)]; [done|].
  by rewrite (proj2 (Z.eqb_neq _ _) Hlen).
Qed.

(** C10. On an instance whose [processing_time] has [nb_tasks] entries and
    whose [successors] names only tasks in [0, nb_tasks), a list or tuple of
    length [nb_tasks] never makes the function raise: it returns the penalty,
    or an integer that is at most [nb_tasks] and, for a non-empty assignment,
    at least 1. *)
Theorem evaluate_solution_never_raises self solution items :
  times_cover self → successors_in_range self →
  as_sequence solution = Some items →
  Z.of_nat (length items) = nb_tasks self →
  evaluate_solution self solution = Ok PENALTY ∨
  ∃ n, evaluate_solution self solution = Ok (Stations n) ∧
       Z.of_nat n ≤ nb_tasks self ∧ (items ≠ [] → (1 ≤ n)%nat).
Proof.
  intros Hcov Hsucc Hseq Hlen.
  destruct (check_stations (max_nb_stations self) items) as [sol|] eqn:Hchk.
  - destruct (evaluate_solution_checked _ _ _ _ Hseq Hlen Hchk) as [Hlen' ->].
    unfold times_cover in Hcov.
    destruct (capacity_loop_total self sol 0%nat ∅) as [->|[st' ->]]; [lia|by left|].
    destruct (precedence_loop_spec self sol Hlen' _ Hsucc) as [[-> _]|[-> _]]; [by left|].
    right. eexists. split; [done|]. rewrite size_set_distinct.
    pose proof (distinct_le_length sol).
    split; [lia|]. intros Hne. apply distinct_pos. intros ->.
    apply check_stations_length in Hchk. by destruct items.
  - left. unfold evaluate_solution. rewrite Hseq.
    rewrite (proj2 (Z.eqb_eq _ _) Hlen). simpl. by rewrite Hchk.
Qed.

(** The only value the loops return is the penalty. *)
Lemma capacity_loop_Return self sol : ∀ i st v,
  capacity_loop self i sol st = Return v → v = PENALTY.
Proof.
  induction sol as [|s sol IH]; intros i st v; [done|].
  rewrite capacity_loop_cons. destruct (_ !! i); [|done].
  destruct (_ >? _); [by intros [= <-]|apply IH].
Qed.

Lemma succs_loop_Return sol i succs v :
  succs_loop sol i succs = Return v → v = PENALTY.
Proof.
  induction succs as [|j succs IH]; simpl; [done|].
  destruct (py_getitem sol i); [|done].
  destruct (py_getitem sol j); [|done].
  destruct (_ >? _); [by intros [= <-]|done].
Qed.

Lemma precedence_loop_Return sol items v :
  precedence_loop sol items = Return v → v = PENALTY.
Proof.
  induction items as [|[p succs] items IH]; simpl; [done|].
  destruct (succs_loop sol p succs) eqn:E; [done| |done].
  intros [= <-]. by eapply succs_loop_Return.
Qed.

Lemma idle_tasks_invariants n :
  0 ≤ n →
  times_cover (idle_tasks n) ∧ times_nonneg (idle_tasks n) ∧
  successors_in_range (idle_tasks n) ∧ 0 < cycle_time (idle_tasks n).
Proof.
  intros Hn. unfold times_cover, times_nonneg, successors_in_range.
  cbn [idle_tasks nb_tasks processing_time successors cycle_time].
  split; [|split; [|split]].
  - rewrite length_replicate. apply Z2Nat.id, Hn.
  - apply Forall_replicate. apply Z.le_refl.
  - apply Forall_nil_2.
  - apply Z.lt_0_1.
Qed.

(** C6, as stated, fails: the penalty is the constant [1e9], and an instance,
    here one that satisfies every data-model invariant, may have that many
    tasks. *)
Lemma penalty_not_above_every_task_count :
  (times_cover (idle_tasks 1000000000) ∧ times_nonneg (idle_tasks 1000000000) ∧
   successors_in_range (idle_tasks 1000000000) ∧
   0 < cycle_time (idle_tasks 1000000000)) ∧
  ¬ (score_value PENALTY > nb_tasks (idle_tasks 1000000000)).
Proof.
  split.
  - apply idle_tasks_invariants. apply Z.leb_le. reflexivity.
  - cbn [idle_tasks nb_tasks PENALTY score_value].
    intros H. apply Z.gt_lt in H. revert H. apply Z.lt_irrefl.
Qed.

(** C6, amended. For an instance of fewer than [10^9] tasks the penalty is
    strictly greater than [nb_tasks], and [nb_tasks] bounds every station
    count the function returns, so the penalty is above each of them. *)
Theorem penalty_dominates_below_1e9 self :
  nb_tasks self < 10 ^ 9 →
  score_value PENALTY > nb_tasks self ∧
  ∀ solution n,
    evaluate_solution self solution = Ok (Stations n) →
    Z.of_nat n ≤ nb_tasks self ∧ score_value (Stations n) < score_value PENALTY.
Proof.
  intros Hn. split; [simpl; lia|]. intros solution n Heval.
  assert (Z.of_nat n ≤ nb_tasks self) as Hle; [|simpl; split; lia].
  unfold evaluate_solution in Heval.
  destruct (as_sequence solution) as [items|]; [|done].
  destruct (Z.of_nat (length items) =? nb_tasks self) eqn:Hlen; [|done].
  apply Z.eqb_eq in Hlen. simpl in Heval.
  destruct (check_stations _ items) as [sol|] eqn:Hchk; [|done].
  apply check_stations_length in Hchk.
  assert (n = size (list_to_set sol : gset Z)) as ->.
  { destruct (capacity_loop _ _ _ _) as [?|v|?] eqn:Hc.
    - destruct (precedence_loop _ _) as [?|v|?] eqn:Hp.
      + by injection Heval.
      + by rewrite (precedence_loop_Return _ _ _ Hp) in Heval.
      + done.
    - by rewrite (capacity_loop_Return _ _ _ _ _ Hc) in Heval.
    - done. }
  rewrite size_set_distinct. pose proof (distinct_le_length sol). lia.
Qed.

(** ** Properties of _load_instance_from_file *)

Lemma Sorted_seqZ m n : Sorted Z.le (seqZ m n).
Proof.
  unfold seqZ. generalize (Z.to_nat n) 0%nat. intros k.
  induction k as [|k IH]; intros a; simpl; [constructor|].
  constructor; [apply IH|]. destruct k; simpl; constructor. lia.
Qed.

Lemma sorted_keys_seqZ (l : list Z) n :
  Sorted Z.le l → NoDup l → (∀ x, x ∈ l ↔ 0 ≤ x < n) → l = seqZ 0 n.
Proof.
  intros Hs Hnd Hel. apply (Sorted_unique Z.le); [done|apply Sorted_seqZ|].
  apply NoDup_Permutation; [done|apply NoDup_seqZ|].
  intros x. rewrite Hel, elem_of_seqZ. lia.
Qed.

Global Instance key_le_total : Total key_le.
Proof. intros x y. unfold key_le. lia. Qed.

(** Sorting the items of a dict whose keys are [0 .. n-1] puts the value of
    key [i] at index [i]. *)
Lemma sorted_values_lookup (d : gmap Z Z) n :
  (∀ k, is_Some (d !! k) ↔ 0 ≤ k < n) →
  length (sorted_values d) = Z.to_nat n ∧
  ∀ i : nat, Z.of_nat i < n → sorted_values d !! i = d !! Z.of_nat i.
Proof.
  intros Hdom. unfold sorted_values.
  set (L := merge_sort key_le (map_to_list d)).
  assert (L ≡ₚ map_to_list d) as Hperm by apply merge_sort_Permutation.
  assert (L.*1 = seqZ 0 n) as Hkeys.
  { apply sorted_keys_seqZ.
    - apply (Sorted_fmap fst key_le); [by intros x y|]. apply Sorted_merge_sort, _.
    - rewrite Hperm. apply NoDup_fst_map_to_list.
    - intros k. rewrite Hperm, <- Hdom, list_elem_of_fmap. split.
      + intros ([k' v] & -> & Hin). apply elem_of_map_to_list in Hin. by exists v.
      + intros [v Hv]. exists (k, v). split; [done|]. by apply elem_of_map_to_list. }
  split.
  - rewrite length_fmap, <- (length_fmap fst), Hkeys. apply length_seqZ.
  - intros i Hi.
    assert (L.*1 !! i = Some (Z.of_nat i)) as Hk.
    { rewrite Hkeys. by rewrite lookup_seqZ_lt. }
    rewrite list_lookup_fmap in Hk. rewrite list_lookup_fmap.
    destruct (L !! i) as [[k v]|] eqn:HL; [|done]. simpl in *. simplify_eq.
    symmetry. apply elem_of_map_to_list. rewrite <- Hperm.
    by eapply list_elem_of_lookup_2.
Qed.

Lemma store_times_other ps : ∀ d j,
  (∀ k t, (k, t) ∈ ps → k - 1 ≠ j) → store_times ps d !! j = d !! j.
Proof.
  induction ps as [|[k0 t0] ps IH]; intros d j Hj; [done|].
  unfold store_times in *. simpl. rewrite IH.
  - apply lookup_insert_ne. apply (Hj k0 t0). by left.
  - intros k t Hin. apply (Hj k t). by right.
Qed.

Lemma store_times_lookup ps : ∀ d k t,
  NoDup ps.*1 → (k, t) ∈ ps → store_times ps d !! (k - 1) = Some t.
Proof.
  induction ps as [|[k0 t0] ps IH]; intros d k t Hnd Hin; [by apply elem_of_nil in Hin|].
  apply NoDup_cons in Hnd as [Hk0 Hnd].
  apply elem_of_cons in Hin as [[= -> ->]|Hin].
  - unfold store_times. simpl. fold (store_times ps (<[k0 - 1 := t0]> d)).
    rewrite store_times_other; [apply lookup_insert_eq|].
    intros k t Hin Heq. apply Hk0. apply list_elem_of_fmap.
    exists (k, t). split; [simpl; lia|done].
  - unfold store_times. simpl. by apply IH.
Qed.

Lemma store_times_dom ps : ∀ d j,
  is_Some (store_times ps d !! j) ↔ is_Some (d !! j) ∨ j + 1 ∈ ps.*1.
Proof.
  induction ps as [|[k0 t0] ps IH]; intros d j.
  - simpl. rewrite elem_of_nil. tauto.
  - unfold store_times in *. simpl. rewrite IH, elem_of_cons.
    rewrite lookup_insert_is_Some. destruct (decide (k0 - 1 = j)); intuition lia.
Qed.

Lemma skip_app n pre rest : length pre = n → skip n (pre ++ rest) = Ok (tt, rest).
Proof.
  revert pre. induction n as [|n IH]; intros [|t pre] Hlen; try done.
  simpl. reader_unfold. simpl. apply IH. simpl in Hlen. lia.
Qed.

Lemma skip_Ok n : ∀ toks u rest,
  skip n toks = Ok (u, rest) → ∃ pre, toks = pre ++ rest ∧ length pre = n.
Proof.
  induction n as [|n IH]; intros toks u rest H.
  - injection H as _ ->. by exists [].
  - simpl in H. reader_unfold. destruct toks as [|t toks]; [done|]. simpl in H.
    apply IH in H as (pre & -> & Hlen). exists (t :: pre). simpl. auto.
Qed.

Lemma skip_Raise n : ∀ toks e, skip n toks = Raise e → e = StopIteration.
Proof.
  induction n as [|n IH]; intros toks e H; [done|].
  simpl in H. reader_unfold. destruct toks as [|t toks]; simpl in H.
  - congruence.
  - by eapply IH.
Qed.

Section LoaderFacts.
Variable py_int : string → option Z.

Lemma read_times_app ptoks : ∀ ps n d rest,
  parse_pairs py_int ptoks = Some ps → length ps = n →
  read_times py_int n d (ptoks ++ rest) = Ok (store_times ps d, rest).
Proof.
  induction ptoks as [ptoks IH] using (induction_ltof1 _ length).
  intros ps n d rest Hp Hn. destruct ptoks as [|a [|b ptoks]]; simpl in Hp.
  - injection Hp as <-. by subst n.
  - done.
  - destruct (py_int a) as [k|] eqn:Ha; [|done].
    destruct (py_int b) as [t|] eqn:Hb; [|done].
    destruct (parse_pairs py_int ptoks) as [ps'|] eqn:Hps; [|done].
    injection Hp as <-. subst n. simpl. reader_unfold. simpl.
    rewrite Ha. simpl. rewrite Hb. apply IH; [unfold ltof; simpl; lia|done..].
Qed.

Lemma read_times_Ok n : ∀ d toks d' rest,
  read_times py_int n d toks = Ok (d', rest) →
  ∃ ptoks ps, toks = ptoks ++ rest ∧ parse_pairs py_int ptoks = Some ps ∧
              length ps = n ∧ d' = store_times ps d.
Proof.
  induction n as [|n IH]; intros d toks d' rest H.
  - injection H as <- ->. by exists [], [].
  - simpl in H. reader_unfold.
    destruct toks as [|a toks]; [done|]. simpl in H.
    destruct (py_int a) as [k|] eqn:Ha; [|done].
    destruct toks as [|b toks]; [done|]. simpl in H.
    destruct (py_int b) as [t|] eqn:Hb; [|done].
    apply IH in H as (ptoks & ps & -> & Hps & Hlen & ->).
    exists (a :: b :: ptoks), ((k, t) :: ps). simpl.
    rewrite Ha, Hb, Hps. by rewrite Hlen.
Qed.

Lemma read_times_Raise n : ∀ d toks e,
  read_times py_int n d toks = Raise e → e = StopIteration ∨ e = ValueError.
Proof.
  induction n as [|n IH]; intros d toks e H; [done|].
  simpl in H. reader_unfold.
  destruct toks as [|a toks]; simpl in H; [left; congruence|].
  destruct (py_int a) as [k|]; [|right; congruence].
  destruct toks as [|b toks]; simpl in H; [left; congruence|].
  destruct (py_int b) as [t|]; [|right; congruence].
  by eapply IH.
Qed.

Lemma scan_precedences_Raise toks : ∀ succs e,
  scan_precedences py_int toks succs = Raise e → e = ValueError.
Proof.
  induction toks as [|tok toks IH]; intros succs e H; [done|].
  simpl in H. destruct (has_comma tok); [|by eapply IH].
  destruct (split_comma tok) as [|a [|b [|? ?]]]; try congruence.
  destruct (py_int a); [|congruence].
  destruct (py_int b); [|congruence].
  by eapply IH.
Qed.

Lemma scan_precedences_comma tok toks succs :
  has_comma tok = true →
  scan_precedences py_int (tok :: toks) succs =
  match parse_pair py_int tok with
  | Some (p, s) => scan_precedences py_int toks (dict_append succs (p - 1) (s - 1))
  | None => Raise ValueError
  end.
Proof.
  intros Hc. simpl. rewrite Hc. unfold parse_pair.
  destruct (split_comma tok) as [|a [|b [|? ?]]]; try done.
  destruct (py_int a); [|done]. by destruct (py_int b).
Qed.

(** The scan depends on the tokens only through the pairs the tokens with
    a comma denote. *)
Lemma scan_precedences_pairs toks : ∀ succs,
  scan_precedences py_int toks succs =
  match comma_pairs py_int toks with
  | Some ps => Ok (record_pairs ps succs)
  | None => Raise ValueError
  end.
Proof.
  unfold comma_pairs.
  induction toks as [|tok toks IH]; intros succs; [done|].
  rewrite filter_cons. destruct (has_comma tok) eqn:Hc.
  - rewrite decide_True by done. rewrite scan_precedences_comma by done.
    simpl. destruct (parse_pair py_int tok) as [[p s]|]; simpl; [|done].
    rewrite IH. by destruct (mapM _ _).
  - rewrite decide_False by done. simpl. rewrite Hc. apply IH.
Qed.
#[local] Arguments skip : simpl never.
#[local] Arguments read_times : simpl never.

Lemma load_mandatory tokens n c ps rest :
  instance_file py_int tokens n c ps rest →
  _load_instance_from_file py_int tokens =
  match scan_precedences py_int rest [] with
  | Raise e => Raise e
  | Ok succs =>
      Ok {| nb_tasks := n; max_nb_stations := n; cycle_time := c;
            processing_time := sorted_values (store_times ps ∅);
            successors := succs |}
  end.
Proof.
  intros (hdr & tn & gap & tc & pad & ptoks & tail & -> & Hh & Hg & Hp & Ht
          & Hn & Hc & Hps & Hlen).
  unfold _load_instance_from_file. reader_unfold.
  rewrite (skip_app _ _ _ Hh). simpl. rewrite Hn.
  rewrite (skip_app _ _ _ Hg). simpl. rewrite Hc.
  rewrite (skip_app _ _ _ Hp).
  rewrite (read_times_app _ _ _ _ _ Hps Hlen).
  by rewrite (skip_app _ _ _ Ht).
Qed.

Lemma load_Ok tokens inst :
  _load_instance_from_file py_int tokens = Ok inst → mandatory_fields py_int tokens.
Proof.
  unfold _load_instance_from_file. reader_unfold. intros H.
  destruct (skip 3 tokens) as [[[] t1]|] eqn:E1; [|done].
  apply skip_Ok in E1 as (hdr & -> & Hh).
  destruct t1 as [|tn t1]; [done|]. simpl in H.
  destruct (py_int tn) as [n|] eqn:Hn; [|done].
  destruct (skip 2 t1) as [[[] t2]|] eqn:E2; [|done].
  apply skip_Ok in E2 as (gap & -> & Hg).
  destruct t2 as [|tc t2]; [done|]. simpl in H.
  destruct (py_int tc) as [c|] eqn:Hc; [|done].
  destruct (skip 5 t2) as [[[] t3]|] eqn:E3; [|done].
  apply skip_Ok in E3 as (pad & -> & Hp).
  destruct (read_times py_int (Z.to_nat n) ∅ t3) as [[d t4]|] eqn:E4; [|done].
  apply read_times_Ok in E4 as (ptoks & ps & -> & Hps & Hlen & ->).
  destruct (skip 2 t4) as [[[] t5]|] eqn:E5; [|done].
  apply skip_Ok in E5 as (tail & -> & Ht).
  exists n, c, ps, t5, hdr, tn, gap, tc, pad, ptoks, tail. by repeat split.
Qed.

Lemma load_Raise tokens e :
  _load_instance_from_file py_int tokens = Raise e →
  e = StopIteration ∨ e = ValueError.
Proof.
  unfold _load_instance_from_file. reader_unfold. intros H.
  destruct (skip 3 tokens) as [[[] t1]|] eqn:E1;
    [|apply skip_Raise in E1; left; congruence].
  destruct t1 as [|tn t1]; simpl in H; [left; congruence|].
  destruct (py_int tn) as [n|]; [|right; congruence].
  destruct (skip 2 t1) as [[[] t2]|] eqn:E2;
    [|apply skip_Raise in E2; left; congruence].
  destruct t2 as [|tc t2]; simpl in H; [left; congruence|].
  destruct (py_int tc) as [c|]; [|right; congruence].
  destruct (skip 5 t2) as [[[] t3]|] eqn:E3;
    [|apply skip_Raise in E3; left; congruence].
  destruct (read_times py_int (Z.to_nat n) ∅ t3) as [[d t4]|] eqn:E4;
    [|apply read_times_Raise in E4 as [->| ->]; [left|right]; congruence].
  destruct (skip 2 t4) as [[[] t5]|] eqn:E5;
    [|apply skip_Raise in E5; left; congruence].
  destruct (scan_precedences py_int t5 []) eqn:E6; [done|].
  apply scan_precedences_Raise in E6. right. congruence.
Qed.
End LoaderFacts.

Lemma dict_lookup_append d : ∀ k s j,
  dict_lookup (dict_append d k s) j =
  if decide (j = k) then Some (default [] (dict_lookup d k) ++ [s])
  else dict_lookup d j.
Proof.
  induction d as [|[k0 l0] d IH]; intros k s j; simpl.
  - destruct (decide (k = j)), (decide (j = k)); congruence.
  - destruct (decide (k0 = k)) as [->|Hne]; simpl.
    + destruct (decide (k = j)), (decide (j = k)); congruence.
    + rewrite IH. destruct (decide (k0 = j)), (decide (j = k)); congruence.
Qed.

Lemma dict_append_keys d : ∀ k s,
  (dict_append d k s).*1 = d.*1 ++ (if decide (k ∈ d.*1) then [] else [k]).
Proof.
  induction d as [|[k0 l0] d IH]; intros k s.
  - simpl. destruct (decide (k ∈ [])) as [Hin|_]; [by apply elem_of_nil in Hin|done].
  - cbn [dict_append]. destruct (decide (k0 = k)) as [->|Hne]; csimpl.
    + destruct (decide (k ∈ k :: d.*1)) as [_|Hnot]; [by rewrite app_nil_r|].
      destruct Hnot. by left.
    + rewrite IH. f_equal. destruct (decide (k ∈ d.*1)) as [Hin|Hnot].
      * destruct (decide (k ∈ k0 :: d.*1)) as [_|Hnot]; [done|].
        destruct Hnot. by right.
      * destruct (decide (k ∈ k0 :: d.*1)) as [Hin|_]; [|done].
        apply elem_of_cons in Hin as [?|?]; congruence.
Qed.

Lemma dict_append_NoDup d k s : NoDup d.*1 → NoDup (dict_append d k s).*1.
Proof.
  intros Hnd. rewrite dict_append_keys. destruct (decide (k ∈ d.*1)).
  - by rewrite app_nil_r.
  - apply NoDup_app. split; [done|]. split; [|apply NoDup_singleton].
    intros x Hx ->%list_elem_of_singleton. done.
Qed.

Lemma record_pairs_NoDup ps : ∀ d, NoDup d.*1 → NoDup (record_pairs ps d).*1.
Proof.
  induction ps as [|[p s] ps IH]; intros d Hnd; [done|].
  apply IH. by apply dict_append_NoDup.
Qed.

(** Recording pairs extends the list of each predecessor by its successors,
    in the order of the pairs, and leaves the other keys as they were. *)
Lemma record_pairs_lookup ps : ∀ d k,
  dict_lookup (record_pairs ps d) k =
  if decide (successors_of ps k = []) then dict_lookup d k
  else Some (default [] (dict_lookup d k) ++ successors_of ps k).
Proof.
  unfold successors_of.
  induction ps as [|[p s] ps IH]; intros d k; [done|].
  unfold record_pairs. simpl. fold (record_pairs ps (dict_append d (p - 1) (s - 1))).
  rewrite IH, dict_lookup_append, filter_cons. simpl.
  destruct (decide (p - 1 = k)) as [<-|Hne].
  - rewrite (decide_True (P := p - 1 = p - 1)) by done. simpl.
    case_decide as Hnil.
    + unfold fmap in Hnil. by rewrite Hnil.
    + by rewrite <- app_assoc.
  - by rewrite (decide_False (P := k = p - 1)).
Qed.

(** C7. When the pairs of the processing-time section carry the task numbers
    [1 .. nb_tasks], each once and in any order, and the rest of the file
    scans, the loaded [processing_time] has [nb_tasks] entries and its entry
    [i] is the time the file records for task number [i + 1]. *)
Theorem processing_time_round_trip py_int tokens n c ps rest succs :
  instance_file py_int tokens n c ps rest →
  ps.*1 ≡ₚ seqZ 1 n →
  scan_precedences py_int rest [] = Ok succs →
  ∃ inst,
    _load_instance_from_file py_int tokens = Ok inst ∧
    nb_tasks inst = n ∧
    length (processing_time inst) = Z.to_nat n ∧
    ∀ (i : nat) t, (Z.of_nat i + 1, t) ∈ ps → processing_time inst !! i = Some t.
Proof.
  intros Hfile Hperm Hscan.
  rewrite (load_mandatory _ _ _ _ _ _ Hfile), Hscan.
  eexists. split; [done|]. split; [done|]. simpl.
  assert (NoDup ps.*1) as Hnd by (rewrite Hperm; apply NoDup_seqZ).
  destruct (sorted_values_lookup (store_times ps ∅) n) as [Hlen Hlook].
  { intros k. rewrite store_times_dom, lookup_empty, Hperm, elem_of_seqZ.
    split; [intros [[? [=]]|?]; lia|intros ?; right; lia]. }
  split; [done|]. intros i t Hin.
  assert (Z.of_nat i + 1 ∈ seqZ 1 n) as Hi.
  { rewrite <- Hperm. apply list_elem_of_fmap. by exists (Z.of_nat i + 1, t). }
  apply elem_of_seqZ in Hi. rewrite Hlook by lia.
  rewrite <- (store_times_lookup ps ∅ _ t Hnd Hin). f_equal. lia.
Qed.

(** C9. When a mandatory field is missing from the token stream or a
    mandatory number does not parse, loading raises: [StopIteration] from
    [next] or [ValueError] from [int]; no instance is produced. *)
Theorem missing_mandatory_field_raises py_int tokens :
  ¬ mandatory_fields py_int tokens →
  _load_instance_from_file py_int tokens = Raise StopIteration ∨
  _load_instance_from_file py_int tokens = Raise ValueError.
Proof.
  intros Hno.
  destruct (_load_instance_from_file py_int tokens) as [inst|e] eqn:E.
  - destruct Hno. by eapply load_Ok.
  - apply load_Raise in E as [-> | ->]; auto.
Qed.

(** ** The properties on the sample instances and files *)

(** Discharges a membership in a list that is written out. *)
Ltac by_cases_on H :=
  repeat (apply elem_of_cons in H as [H|H]; [try (injection H as -> ->); subst|]);
  try (by apply elem_of_nil in H).

(** Discharges a [Forall] of arithmetic facts over a list that is written
    out. *)
Ltac forall_listed :=
  repeat first [apply Forall_nil_2 | apply Forall_cons_2 | split];
  unfold task_index; simpl; try lia.

Lemma valid_list self (sol : list Z) :
  Z.of_nat (length sol) = nb_tasks self →
  Forall (λ z, 0 ≤ z < max_nb_stations self) sol →
  valid_assignment self (PyList (PyInt <$> sol)) sol.
Proof.
  intros Hlen Hrange. exists (PyInt <$> sol). split; [done|].
  split; [by rewrite length_fmap|]. split; [|done].
  clear. induction sol; constructor; auto.
Defined.

Example scenario_feasible :
  evaluate_solution scenario (PyList [PyInt 0; PyInt 0; PyInt 1]) = Ok (Stations 2).
Proof. vm_compute. reflexivity. Qed.

Example scenario_precedence :
  evaluate_solution scenario (PyList [PyInt 1; PyInt 0; PyInt 0]) = Ok Penalty.
Proof. vm_compute. reflexivity. Qed.

Example sample_loaded :
  _load_instance_from_file ascii_int sample_tokens =
  Ok {| nb_tasks := 3; max_nb_stations := 3; cycle_time := 10;
        processing_time := [4; 5; 3]; successors := [(0, [2; 1]); (1, [2])] |}.
Proof. vm_compute. reflexivity. Qed.

(** Stations 0, 2, 2, 5 for four tasks: three stations are used, not six and
    not four. *)
Lemma spread_counts_three :
  evaluate_solution spread (PyList [PyInt 0; PyInt 2; PyInt 2; PyInt 5]) =
  Ok (Stations 3).
Proof.
  apply (objective_counts_distinct_stations spread _ [0; 2; 2; 5]).
  - reflexivity.
  - forall_listed.
  - forall_listed.
  - apply (valid_list spread [0; 2; 2; 5]); [reflexivity|forall_listed].
  - intros k Hk. by_cases_on Hk; simpl; lia.
  - intros p s (succs & Hin & Hs) (a & b & Ha & Hb & Hgt).
    by_cases_on Hin. by_cases_on Hs. simpl in Ha, Hb. simplify_eq. lia.
Defined.

(** Task 0 after its successor, task 2. *)
Lemma scenario_out_of_order :
  evaluate_solution scenario (PyList [PyInt 1; PyInt 0; PyInt 0]) = Ok PENALTY.
Proof.
  apply (precedence_violation_penalised scenario _ [1; 0; 0]).
  - reflexivity.
  - forall_listed.
  - apply (valid_list scenario [1; 0; 0]); [reflexivity|forall_listed].
  - exists 0, 2. split.
    + exists [2]. split; [left|left].
    + exists 1, 0. split; [reflexivity|]. split; [reflexivity|lia].
Defined.

(** Tasks 0 and 1 fill station 0 to the cycle time of 9 exactly and are not
    penalised; with task 2 added the station holds 12 and is. *)
Lemma tight_station_boundary :
  evaluate_solution tight (PyList [PyInt 0; PyInt 0; PyInt 1]) ≠ Ok PENALTY ∧
  evaluate_solution tight (PyList [PyInt 0; PyInt 0; PyInt 0]) = Ok PENALTY.
Proof.
  split.
  - destruct (capacity_boundary tight (PyList [PyInt 0; PyInt 0; PyInt 1]) [0; 0; 1])
      as [_ Hequal].
    + reflexivity.
    + reflexivity.
    + apply (valid_list tight [0; 0; 1]); [reflexivity|forall_listed].
    + intros Hpen. apply (Hequal ltac:(forall_listed) ltac:(forall_listed) 0) in Hpen.
      * destruct Hpen as (p & s & (succs & Hin & Hs) & (a & b & Ha & Hb & Hgt)).
        by_cases_on Hin. by_cases_on Hs. simpl in Ha, Hb. simplify_eq. lia.
      * reflexivity.
      * intros k Hne. simpl. rewrite !decide_False by done.
        destruct (decide (1 = k)); lia.
  - destruct (capacity_boundary tight (PyList [PyInt 0; PyInt 0; PyInt 0]) [0; 0; 0])
      as [Hover _].
    + reflexivity.
    + reflexivity.
    + apply (valid_list tight [0; 0; 0]); [reflexivity|forall_listed].
    + apply (Hover 0). simpl. lia.
Defined.

(** A string and a negative number among the entries. *)
Lemma scenario_bad_entries :
  evaluate_solution scenario (PyTuple [PyInt 0; PyStr "x"; PyInt (-1)]) = Ok PENALTY.
Proof.
  eapply proj1.
  apply (invalid_station_penalised scenario _ [PyInt 0; PyStr "x"; PyInt (-1)]).
  - reflexivity.
  - reflexivity.
  - right. left. exact I.
Defined.

(** An assignment of [nb_tasks - 1] entries, and one that is no sequence. *)
Lemma scenario_bad_shape :
  evaluate_solution scenario (PyList [PyInt 0; PyInt 1]) = Raise ValueError ∧
  evaluate_solution scenario (PyInt 0) = Raise ValueError.
Proof.
  split.
  - apply (bad_shape_raises scenario). right.
    exists [PyInt 0; PyInt 1]. split; [reflexivity|]. simpl. lia.
  - apply (bad_shape_raises scenario). left. reflexivity.
Defined.

Lemma scenario_never_raises :
  evaluate_solution scenario (PyList [PyInt 0; PyBool true; PyInt 2]) = Ok PENALTY ∨
  ∃ n, evaluate_solution scenario (PyList [PyInt 0; PyBool true; PyInt 2]) =
         Ok (Stations n) ∧
       Z.of_nat n ≤ nb_tasks scenario ∧
       ([PyInt 0; PyBool true; PyInt 2] ≠ [] → (1 ≤ n)%nat).
Proof.
  apply (evaluate_solution_never_raises scenario).
  - reflexivity.
  - forall_listed.
  - reflexivity.
  - reflexivity.
Defined.

Lemma scenario_penalty_dominates :
  score_value PENALTY > nb_tasks scenario ∧
  ∀ solution n,
    evaluate_solution scenario solution = Ok (Stations n) →
    Z.of_nat n ≤ nb_tasks scenario ∧ score_value (Stations n) < score_value PENALTY.
Proof.
  apply (penalty_dominates_below_1e9 scenario). simpl. lia.
Defined.

Lemma sample_file :
  instance_file ascii_int sample_tokens 3 10 [(3, 3); (1, 4); (2, 5)] sample_rest.
Proof.
  exists ["a"; "b"; "c"]%string, "3"%string, ["d"; "e"]%string, "10"%string,
    ["f"; "g"; "h"; "i"; "j"]%string, ["3"; "3"; "1"; "4"; "2"; "5"]%string,
    ["k"; "l"]%string.
  repeat split; reflexivity.
Defined.

(** The sample file lists the tasks as 3, 1, 2; the times come out in the
    order of the tasks. *)
Lemma sample_round_trip :
  ∃ inst,
    _load_instance_from_file ascii_int sample_tokens = Ok inst ∧
    nb_tasks inst = 3 ∧
    length (processing_time inst) = Z.to_nat 3 ∧
    ∀ (i : nat) t, (Z.of_nat i + 1, t) ∈ [(3, 3); (1, 4); (2, 5)] →
                   processing_time inst !! i = Some t.
Proof.
  apply (processing_time_round_trip ascii_int sample_tokens 3 10
           [(3, 3); (1, 4); (2, 5)] sample_rest [(0, [2; 1]); (1, [2])]).
  - exact sample_file.
  - change ([3; 1; 2] ≡ₚ [1; 2; 3]).
    apply perm_trans with [1; 3; 2]; [apply perm_swap|apply perm_skip, perm_swap].
  - reflexivity.
Defined.

(** A file that ends after two tokens. *)
Lemma short_file_raises :
  _load_instance_from_file ascii_int ["a"; "b"]%string = Raise StopIteration ∨
  _load_instance_from_file ascii_int ["a"; "b"]%string = Raise ValueError.
Proof.
  apply (missing_mandatory_field_raises ascii_int).
  intros (n & c & ps & rest & hdr & tn & gap & tc & pad & ptoks & tail & Heq & Hh & _).
  apply (f_equal length) in Heq. rewrite length_app in Heq. simpl in Heq. lia.
Defined.

Example truncated_pairs_raise :
  _load_instance_from_file ascii_int
    ["a"; "b"; "c"; "2"; "d"; "e"; "10"; "f"; "g"; "h"; "i"; "j"; "1"; "4"; "2"]%string
  = Raise StopIteration.
Proof. vm_compute. reflexivity. Qed.

Example bad_number_raises :
  _load_instance_from_file ascii_int
    ["a"; "b"; "c"; "two"; "d"; "e"; "10"; "f"; "g"; "h"; "i"; "j"]%string
  = Raise ValueError.
Proof. vm_compute. reflexivity. Qed.

Example ragged_pair_raises :
  _load_instance_from_file ascii_int
    ["a"; "b"; "c"; "0"; "d"; "e"; "10"; "f"; "g"; "h"; "i"; "j"; "k"; "l"; "1,2,3"]%string
  = Raise ValueError.
Proof. vm_compute. reflexivity. Qed.

Example ascii_int_literals :
  ascii_int "42" = Some 42 ∧ ascii_int "-7" = Some (-7) ∧ ascii_int "+7" = Some 7 ∧
  ascii_int "007" = Some 7 ∧ ascii_int "1_000" = Some 1000 ∧
  ascii_int EmptyString = None ∧ ascii_int "-" = None ∧ ascii_int "1__0" = None ∧
  ascii_int "_1" = None ∧ ascii_int "1_" = None ∧ ascii_int "1.5" = None.
Proof. vm_compute. repeat split. Qed.

Example split_comma_pieces :
  split_comma "12,7" = ["12"; "7"]%string ∧
  split_comma "1,2,3" = ["1"; "2"; "3"]%string ∧
  split_comma "," = [EmptyString; EmptyString] ∧
  split_comma EmptyString = [EmptyString].
Proof. vm_compute. repeat split. Qed.

(** ** Further properties of evaluate_solution *)

Lemma check_stations_Some_inv max_nb items : ∀ sol,
  check_stations max_nb items = Some sol →
  Forall2 (λ x z, as_int x = Some z) items sol ∧ Forall (λ z, 0 ≤ z < max_nb) sol.
Proof.
  induction items as [|x items IH]; intros sol; simpl.
  - intros [= <-]. split; constructor.
  - destruct (as_int x) as [z|] eqn:Hx; [|done].
    destruct (z <? 0) eqn:E1; [done|]. destruct (z >=? max_nb) eqn:E2; [done|]. simpl.
    destruct (check_stations max_nb items) as [sol'|]; [|done].
    intros [= <-]. destruct (IH sol' eq_refl) as [H2 Hr].
    split; constructor; auto. lia.
Qed.

Lemma check_stations_None_inv max_nb items :
  check_stations max_nb items = None → Exists (bad_station max_nb) items.
Proof.
  induction items as [|x items IH]; simpl; [done|].
  destruct (as_int x) as [z|] eqn:Hx;
    [|intros _; left; unfold bad_station; by rewrite Hx].
  destruct (z <? 0) eqn:E1;
    [intros _; left; unfold bad_station; rewrite Hx; lia|].
  destruct (z >=? max_nb) eqn:E2;
    [intros _; left; unfold bad_station; rewrite Hx; lia|]. simpl.
  destruct (check_stations max_nb items); [done|]. intros _. right. by apply IH.
Qed.

Lemma capacity_loop_Next_length self sol : ∀ i st st',
  (i ≤ length (processing_time self))%nat →
  capacity_loop self i sol st = Next st' →
  (i + length sol ≤ length (processing_time self))%nat.
Proof.
  induction sol as [|s sol IH]; intros i st st' Hi.
  - intros _. simpl. lia.
  - rewrite capacity_loop_cons.
    destruct (processing_time self !! i) as [p|] eqn:Hp; [|done].
    apply lookup_lt_Some in Hp.
    destruct (_ >? _); [done|]. intros H%IH; simpl; lia.
Qed.

Lemma capacity_loop_Throw self sol : ∀ i st e,
  capacity_loop self i sol st = Throw e → e = IndexError.
Proof.
  induction sol as [|s sol IH]; intros i st e; [done|].
  rewrite capacity_loop_cons. destruct (_ !! i); [|congruence].
  destruct (_ >? _); [done|apply IH].
Qed.

Lemma py_getitem_Raise {A} (l : list A) i e : py_getitem l i = Raise e → e = IndexError.
Proof.
  unfold py_getitem. destruct (_ <? 0); [congruence|].
  destruct (l !! _); congruence.
Qed.

Lemma succs_loop_Throw sol i succs e : succs_loop sol i succs = Throw e → e = IndexError.
Proof.
  induction succs as [|j succs IH]; simpl; [done|].
  destruct (py_getitem sol i) eqn:Ei; [|intros [= <-]; by eapply py_getitem_Raise].
  destruct (py_getitem sol j) eqn:Ej; [|intros [= <-]; by eapply py_getitem_Raise].
  destruct (_ >? _); [done|apply IH].
Qed.

Lemma precedence_loop_Throw sol items e :
  precedence_loop sol items = Throw e → e = IndexError.
Proof.
  induction items as [|[p succs] items IH]; simpl; [done|].
  destruct (succs_loop sol p succs) eqn:E; [done|done|].
  intros [= <-]. by eapply succs_loop_Throw.
Qed.

(** X1. A station count is returned only for a feasible assignment: the
    entries are valid station indices, every task has a processing time, no
    used station is loaded beyond the cycle time, no recorded pair is out of
    order, and the count is the number of distinct entries. *)
Theorem station_count_only_when_feasible self solution n :
  successors_in_range self →
  evaluate_solution self solution = Ok (Stations n) →
  ∃ sol, valid_assignment self solution sol ∧
         n = length (remove_dups sol) ∧
         (length sol ≤ length (processing_time self))%nat ∧
         capacity_respected self sol ∧ precedence_respected self sol.
Proof.
  intros Hsucc Heval. pose proof Heval as Heval'.
  unfold evaluate_solution in Heval.
  destruct (as_sequence solution) as [items|] eqn:Hseq; [|done].
  destruct (Z.of_nat (length items) =? nb_tasks self) eqn:Hlen; [|done].
  apply Z.eqb_eq in Hlen. simpl in Heval.
  destruct (check_stations _ items) as [sol|] eqn:Hchk; [|done].
  destruct (check_stations_Some_inv _ _ _ Hchk) as [Hval Hrange].
  assert (valid_assignment self solution sol) as Hvalid by (by exists items).
  destruct (evaluate_solution_valid _ _ _ Hvalid) as [Hlen' _].
  exists sol. split; [done|].
  destruct (capacity_loop self 0 sol ∅) as [st'|v|e] eqn:Hc.
  - pose proof (capacity_loop_Next_length _ _ 0%nat _ _ ltac:(lia) Hc) as Hl.
    apply capacity_loop_Next in Hc as [Hsum Hle].
    destruct (precedence_loop_spec self sol Hlen' _ Hsucc) as [[Hp _]|[Hp Hok]];
      rewrite Hp in Heval; [done|].
    injection Heval as <-. rewrite size_set_distinct. split; [done|].
    split; [simpl in Hl; lia|]. split.
    + intros k Hk. specialize (Hle k Hk). rewrite Hsum, drop_0 in Hle.
      unfold acc in Hle. rewrite lookup_empty in Hle. simpl in Hle. lia.
    + intros p s (succs & Hin & Hs). by eapply Hok.
  - by rewrite (capacity_loop_Return _ _ _ _ _ Hc) in Heval.
  - done.
Qed.

(** X2. The station count never exceeds [max_nb_stations]. *)
Theorem station_count_at_most_max self solution n :
  evaluate_solution self solution = Ok (Stations n) →
  (n ≤ Z.to_nat (max_nb_stations self))%nat.
Proof.
  intros Heval. unfold evaluate_solution in Heval.
  destruct (as_sequence solution) as [items|]; [|done].
  destruct (Z.of_nat (length items) =? nb_tasks self); [|done]. simpl in Heval.
  destruct (check_stations _ items) as [sol|] eqn:Hchk; [|done].
  destruct (check_stations_Some_inv _ _ _ Hchk) as [_ Hrange].
  assert (n = size (list_to_set sol : gset Z)) as ->.
  { destruct (capacity_loop _ _ _ _) as [?|v|?] eqn:Hc.
    - destruct (precedence_loop _ _) as [?|v|?] eqn:Hp.
      + by injection Heval.
      + by rewrite (precedence_loop_Return _ _ _ Hp) in Heval.
      + done.
    - by rewrite (capacity_loop_Return _ _ _ _ _ Hc) in Heval.
    - done. }
  rewrite <- (length_seqZ 0 (max_nb_stations self)).
  rewrite <- (size_list_to_set (C := gset Z) (seqZ 0 _)) by apply NoDup_seqZ.
  apply subseteq_size. intros k Hk. apply elem_of_list_to_set in Hk.
  apply elem_of_list_to_set, elem_of_seqZ.
  rewrite Forall_forall in Hrange. specialize (Hrange k Hk). lia.
Qed.

(** X3. The function raises [ValueError] exactly on an input of the wrong
    shape; any other exception is an [IndexError], raised on entries that are
    all valid and only when the instance breaks a data-model invariant. *)
Theorem raises_only_on_shape_or_index self solution :
  (evaluate_solution self solution = Raise ValueError ↔
   as_sequence solution = None ∨
   ∃ items, as_sequence solution = Some items ∧
            Z.of_nat (length items) ≠ nb_tasks self) ∧
  (∀ e, evaluate_solution self solution = Raise e →
        e = ValueError ∨
        e = IndexError ∧ (∃ sol, valid_assignment self solution sol) ∧
        ¬ (times_cover self ∧ successors_in_range self)).
Proof.
  assert (∀ e, evaluate_solution self solution = Raise e →
            (e = ValueError ∧
             (as_sequence solution = None ∨
              ∃ items, as_sequence solution = Some items ∧
                       Z.of_nat (length items) ≠ nb_tasks self)) ∨
            e = IndexError ∧ (∃ sol, valid_assignment self solution sol) ∧
            ¬ (times_cover self ∧ successors_in_range self)) as Hall.
  { intros e Heval. pose proof Heval as Heval'. unfold evaluate_solution in Heval.
    destruct (as_sequence solution) as [items|] eqn:Hseq;
      [|left; split; [congruence|by left]].
    destruct (Z.of_nat (length items) =? nb_tasks self) eqn:Hlen; simpl in Heval.
    - apply Z.eqb_eq in Hlen. right.
      destruct (check_stations _ items) as [sol|] eqn:Hchk; [|done].
      destruct (check_stations_Some_inv _ _ _ Hchk) as [Hval Hrange].
      assert (valid_assignment self solution sol) as Hvalid by (by exists items).
      assert (e = IndexError) as ->.
      { destruct (capacity_loop _ _ _ _) as [?|v|?] eqn:Hc.
        - destruct (precedence_loop _ _) as [?|v|?] eqn:Hp; [done|done|].
          injection Heval as <-. by eapply precedence_loop_Throw.
        - done.
        - injection Heval as <-. by eapply capacity_loop_Throw. }
      split; [done|]. split; [by exists sol|]. intros [Hcov Hsucc].
      destruct (evaluate_solution_cases _ _ _ Hcov Hsucc Hvalid) as [[H _]|[H _]];
        congruence.
    - apply Z.eqb_neq in Hlen. left. split; [congruence|].
      right. by exists items. }
  split.
  - split.
    + intros Heval. destruct (Hall _ Heval) as [[_ H]|[[=] _]]. done.
    + unfold evaluate_solution. intros [->|(items & -> & Hlen)]; [done|].
      by rewrite (proj2 (Z.eqb_neq _ _) Hlen).
  - intros e Heval. destruct (Hall _ Heval) as [[-> _]|H]; auto.
Qed.

(** The second loop returns the penalty exactly when some task brings the
    running total of its station above the cycle time. *)
Lemma capacity_loop_Return_iff self sol : ∀ i st,
  (i + length sol ≤ length (processing_time self))%nat →
  (capacity_loop self i sol st = Return PENALTY ↔
   ∃ (m : nat) s, sol !! m = Some s ∧
     acc st s + station_load (drop i (processing_time self)) (take (S m) sol) s
       > cycle_time self).
Proof.
  induction sol as [|s sol IH]; intros i st Hlen.
  - split; [done|]. by intros (m & s & Hm & _).
  - rewrite capacity_loop_cons. simpl in Hlen.
    destruct (lookup_lt_is_Some_2 (processing_time self) i) as [p Hp]; [lia|].
    rewrite Hp, (drop_S _ _ _ Hp).
    destruct (acc st s + p >? cycle_time self) eqn:Hc.
    + split; [intros _|done]. exists 0%nat, s. split; [done|].
      simpl. rewrite decide_True by done. destruct (drop _ _); simpl; lia.
    + rewrite IH by lia. split.
      * intros (m & s' & Hm & Hover). exists (S m), s'. split; [done|].
        rewrite acc_update in Hover. change (take (S (S m)) (s :: sol)) with
          (s :: take (S m) sol). simpl station_load.
        destruct (decide (s' = s)) as [->|]; destruct (decide _); try congruence; lia.
      * intros ([|m] & s' & Hm & Hover).
        -- injection Hm as <-. simpl in Hover. rewrite decide_True in Hover by done.
           destruct (drop _ _); simpl in Hover; lia.
        -- exists m, s'. split; [done|]. rewrite acc_update.
           change (take (S (S m)) (s :: sol)) with (s :: take (S m) sol) in Hover.
           simpl station_load in Hover.
           destruct (decide (s' = s)) as [->|]; destruct (decide _); try congruence; lia.
Qed.

(** X4. The capacity test is on running totals. On a valid assignment, with a
    processing time per task and [successors] naming tasks only, the score is
    the penalty exactly when some task brings the running total of its
    station above the cycle time or a recorded pair is out of order; the
    processing times need not be non-negative. *)
Theorem penalty_on_running_totals self solution sol :
  times_cover self → successors_in_range self →
  valid_assignment self solution sol →
  (evaluate_solution self solution = Ok PENALTY ↔
   running_overload self sol ∨ out_of_order self sol).
Proof.
  intros Hcov Hsucc Hval.
  destruct (evaluate_solution_valid _ _ _ Hval) as [Hlen Heval].
  unfold times_cover in Hcov.
  pose proof (capacity_loop_Return_iff self sol 0%nat ∅ ltac:(lia)) as Hiff.
  assert (running_overload self sol ↔ capacity_loop self 0 sol ∅ = Return PENALTY)
    as Hrun.
  { rewrite Hiff. unfold running_overload. rewrite drop_0.
    unfold acc. setoid_rewrite lookup_empty. simpl.
    split; intros (m & s & Hm & H); exists m, s; (split; [done|lia]). }
  rewrite Hrun, Heval.
  destruct (capacity_loop_total self sol 0%nat ∅) as [->|[st' ->]]; [lia|tauto|].
  destruct (precedence_loop_spec self sol Hlen _ Hsucc)
    as [[-> (p & succs & j & Hin & Hj & Hv)]|[-> Hok]].
  - split; [intros _|done]. right. exists p, j. split; [by exists succs|done].
  - split; [done|]. intros [[=]|(p & s & (succs & Hin & Hs) & Hv)].
    by destruct (Hok p succs s).
Qed.

(** X5. The exact criterion of the penalty. On an instance that satisfies the
    data-model invariants and a list or tuple of [nb_tasks] entries, the score
    is the penalty exactly when an entry is not a valid station index, or
    some station is loaded beyond the cycle time, or a recorded pair is out
    of order. *)
Theorem penalty_exactly_when_infeasible self solution items :
  times_cover self → times_nonneg self → successors_in_range self →
  as_sequence solution = Some items →
  Z.of_nat (length items) = nb_tasks self →
  (evaluate_solution self solution = Ok PENALTY ↔
   Exists (bad_station (max_nb_stations self)) items ∨
   ∃ sol, valid_assignment self solution sol ∧
          (overloaded self sol ∨ out_of_order self sol)).
Proof.
  intros Hcov Hpos Hsucc Hseq Hlen. split.
  - intros Hpen.
    destruct (check_stations (max_nb_stations self) items) as [sol|] eqn:Hchk;
      [|left; by apply check_stations_None_inv].
    destruct (check_stations_Some_inv _ _ _ Hchk) as [Hval Hrange].
    assert (valid_assignment self solution sol) as Hvalid by (by exists items).
    right. exists sol. split; [done|].
    destruct (evaluate_solution_cases _ _ _ Hcov Hsucc Hvalid)
      as [[_ [Hret|Hv]]|[H _]]; [|by right|by rewrite Hpen in H].
    left.
    destruct (Forall_Exists_dec
                (λ k, station_load (processing_time self) sol k ≤ cycle_time self)
                (λ k, station_load (processing_time self) sol k > cycle_time self)
                (λ k, Z_le_gt_dec _ _) sol) as [Hall|Hex].
    + destruct (evaluate_solution_valid _ _ _ Hvalid) as [Hlen' _].
      unfold times_cover in Hcov. rewrite Forall_forall in Hall.
      destruct (capacity_loop_pass self sol 0%nat ∅) as [st' Hst];
        [lia|by rewrite drop_0| |congruence].
      intros k Hk. rewrite drop_0. unfold acc. rewrite lookup_empty. simpl.
      specialize (Hall k Hk). lia.
    + apply Exists_exists in Hex as (k & Hk & Hover). by exists k.
  - intros [Hbad|(sol & Hvalid & [(k & Hk & Hover)|(p & s & Hrec & Hv)])].
    + unfold evaluate_solution. rewrite Hseq.
      rewrite (proj2 (Z.eqb_eq _ _) Hlen). simpl. by rewrite check_stations_bad.
    + destruct (evaluate_solution_valid _ _ _ Hvalid) as [Hlen' ->].
      unfold times_cover in Hcov.
      destruct (capacity_loop_total self sol 0%nat ∅) as [->|[st' Hst]]; [lia|done|].
      apply capacity_loop_Next in Hst as [Hsum Hle].
      specialize (Hle k Hk). rewrite Hsum, drop_0 in Hle.
      unfold acc in Hle. rewrite lookup_empty in Hle. simpl in Hle. lia.
    + by eapply out_of_order_penalty.
Qed.

Lemma capacity_loop_short self sol : ∀ i st,
  (i ≤ length (processing_time self) < i + length sol)%nat →
  Forall (λ p, 0 ≤ p) (drop i (processing_time self)) →
  (∀ k, acc st k + station_load (drop i (processing_time self)) sol k
        ≤ cycle_time self) →
  capacity_loop self i sol st = Throw IndexError.
Proof.
  induction sol as [|s sol IH]; intros i st Hlen Hpos Hcap; [simpl in Hlen; lia|].
  rewrite capacity_loop_cons. simpl in Hlen.
  destruct (processing_time self !! i) as [p|] eqn:Hp; [|done].
  pose proof (lookup_lt_Some _ _ _ Hp) as Hi.
  rewrite (drop_S _ _ _ Hp) in Hpos, Hcap.
  apply Forall_cons in Hpos as [Hp0 Hpos].
  pose proof (Hcap s) as Hs. simpl in Hs. rewrite decide_True in Hs by done.
  pose proof (station_load_nonneg _ sol s Hpos).
  destruct (_ >? _) eqn:Hc; [lia|].
  apply IH; [lia|done|]. intros k. rewrite acc_update.
  specialize (Hcap k). simpl in Hcap.
  destruct (decide (k = s)) as [->|]; destruct (decide _); try congruence; lia.
Qed.

(** X6. An instance with fewer processing times than tasks makes the function
    raise [IndexError] on a valid assignment, instead of returning a score,
    when the times are non-negative and the tasks that have a time load no
    station beyond the cycle time. *)
Theorem missing_times_raise_IndexError self solution sol :
  valid_assignment self solution sol →
  (length (processing_time self) < length sol)%nat →
  times_nonneg self →
  (∀ station, station_load (processing_time self) sol station ≤ cycle_time self) →
  evaluate_solution self solution = Raise IndexError.
Proof.
  intros Hval Hshort Hpos Hcap.
  destruct (evaluate_solution_valid _ _ _ Hval) as [_ ->].
  rewrite (capacity_loop_short self sol 0%nat ∅); [done|lia|by rewrite drop_0|].
  intros k. rewrite drop_0. unfold acc. rewrite lookup_empty. simpl.
  specialize (Hcap k). lia.
Qed.

Lemma capacity_loop_wrap self sol : ∀ i st,
  capacity_loop (wrap_successors self) i sol st = capacity_loop self i sol st.
Proof.
  induction sol as [|s sol IH]; intros i st; [done|].
  rewrite !capacity_loop_cons. simpl. destruct (_ !! i); [|done].
  destruct (_ >? _); [done|apply IH].
Qed.

Lemma py_getitem_wrap (sol : list Z) i :
  py_getitem sol (wrap_index (Z.of_nat (length sol)) i) = py_getitem sol i.
Proof.
  unfold wrap_index.
  destruct ((i <? 0) && (- Z.of_nat (length sol) <=? i)) eqn:E; [|done].
  apply andb_true_iff in E as [E1 E2]. unfold py_getitem. cbv zeta.
  assert ((i + Z.of_nat (length sol) <? 0) = false) as E3 by lia.
  by repeat first [rewrite E1 | rewrite E3 | progress cbv iota].
Qed.

Lemma succs_loop_wrap (sol : list Z) i succs :
  succs_loop sol (wrap_index (Z.of_nat (length sol)) i)
             (wrap_index (Z.of_nat (length sol)) <$> succs) =
  succs_loop sol i succs.
Proof.
  induction succs as [|j succs IH]; [done|].
  csimpl. rewrite !py_getitem_wrap, IH. done.
Qed.

(** X7. A negative index in [successors] is read the way Python indexes a
    list, from the end: the score, or the exception, is the one of the
    instance in which every index of [-nb_tasks, 0) is replaced by the index
    plus [nb_tasks]. *)
Theorem negative_successor_indices_wrap self solution :
  evaluate_solution self solution = evaluate_solution (wrap_successors self) solution.
Proof.
  unfold evaluate_solution. destruct (as_sequence solution) as [items|]; [|done].
  cbn [nb_tasks max_nb_stations wrap_successors].
  destruct (Z.of_nat (length items) =? nb_tasks self) eqn:Hlen; [|done].
  apply Z.eqb_eq in Hlen. simpl.
  destruct (check_stations _ items) as [sol|] eqn:Hchk; [|done].
  rewrite capacity_loop_wrap.
  destruct (capacity_loop self 0 sol ∅); [|done..].
  apply check_stations_length in Hchk.
  match goal with
  | |- context [precedence_loop sol ?items] =>
      assert (precedence_loop sol (successors self) = precedence_loop sol items)
        as ->; [|done]
  end.
  rewrite <- Hlen, <- Hchk.
  induction (successors self) as [|[p succs] rest IH]; [done|].
  csimpl. rewrite succs_loop_wrap, IH. done.
Qed.

Lemma evaluate_Stations_inv self solution n :
  evaluate_solution self solution = Ok (Stations n) →
  ∃ items sol st',
    as_sequence solution = Some items ∧
    Z.of_nat (length items) = nb_tasks self ∧
    check_stations (max_nb_stations self) items = Some sol ∧
    capacity_loop self 0 sol ∅ = Next st' ∧
    n = length (remove_dups sol).
Proof.
  intros Heval. unfold evaluate_solution in Heval.
  destruct (as_sequence solution) as [items|]; [|done].
  destruct (Z.of_nat (length items) =? nb_tasks self) eqn:Hlen; [|done].
  apply Z.eqb_eq in Hlen. simpl in Heval.
  destruct (check_stations _ items) as [sol|] eqn:Hchk; [|done].
  destruct (capacity_loop _ _ _ _) as [st'|v|?] eqn:Hc.
  - exists items, sol, st'. repeat split; try done.
    rewrite <- size_set_distinct.
    destruct (precedence_loop _ _) as [?|v|?] eqn:Hp.
    + by injection Heval.
    + by rewrite (precedence_loop_Return _ _ _ Hp) in Heval.
    + done.
  - by rewrite (capacity_loop_Return _ _ _ _ _ Hc) in Heval.
  - done.
Qed.

Lemma total_time_fmap_add (f g : Z → Z) ks :
  total_time ((λ k, f k + g k) <$> ks) = total_time (f <$> ks) + total_time (g <$> ks).
Proof. unfold total_time. induction ks as [|k ks IH]; csimpl; lia. Qed.

Lemma total_time_fmap_zero (f : Z → Z) ks :
  (∀ k, k ∈ ks → f k = 0) → total_time (f <$> ks) = 0.
Proof.
  unfold total_time. induction ks as [|k ks IH]; intros Hf; csimpl; [done|].
  rewrite (Hf k) by left. rewrite IH; [done|]. intros; apply Hf; by right.
Qed.

Lemma total_time_fmap_le (f : Z → Z) ks c :
  (∀ k, k ∈ ks → f k ≤ c) → total_time (f <$> ks) ≤ Z.of_nat (length ks) * c.
Proof.
  unfold total_time. induction ks as [|k ks IH]; intros Hf; csimpl; [lia|].
  specialize (Hf k ltac:(left)) as Hk.
  assert (∀ k, k ∈ ks → f k ≤ c) as Hf' by (intros; apply Hf; by right).
  specialize (IH Hf'). lia.
Qed.

Lemma total_time_indicator (ks : list Z) s p :
  NoDup ks → s ∈ ks →
  total_time ((λ k, if decide (s = k) then p else 0) <$> ks) = p.
Proof.
  induction 1 as [|k ks Hk _ IH]; intros Hs; [by apply elem_of_nil in Hs|].
  unfold total_time in *. csimpl. destruct (decide (s = k)) as [->|Hne].
  - fold (total_time ((λ k0, if decide (k = k0) then p else 0) <$> ks)).
    rewrite total_time_fmap_zero; [lia|].
    intros k' Hk'. rewrite decide_False; [done|]. by intros <-.
  - apply elem_of_cons in Hs as [?|Hs]; [done|]. rewrite IH by done. lia.
Qed.

(** The loads of the stations [ks] add up to the total time when every task
    sits on one of them. *)
Lemma load_partition (ks : list Z) : ∀ sol times,
  length times = length sol → NoDup ks → (∀ s, s ∈ sol → s ∈ ks) →
  total_time (station_load times sol <$> ks) = total_time times.
Proof.
  induction sol as [|s sol IH]; intros [|p times] Hlen Hnd Hin; try done.
  - by apply total_time_fmap_zero.
  - simpl in Hlen.
    change (station_load (p :: times) (s :: sol)) with
      (λ k, (if decide (s = k) then p else 0) + station_load times sol k).
    rewrite (total_time_fmap_add (λ k, if decide (s = k) then p else 0)).
    rewrite total_time_indicator; [|done|apply Hin; by left].
    rewrite IH; [done|lia|done|]. intros; apply Hin; by right.
Qed.

(** X9. The classical lower bound. When every task has its processing time, a
    returned station count [n] satisfies
    [sum of processing times <= n * cycle_time]. *)
Theorem station_count_covers_total_time self solution n :
  times_cover self →
  evaluate_solution self solution = Ok (Stations n) →
  total_time (processing_time self) ≤ Z.of_nat n * cycle_time self.
Proof.
  intros Hcov Heval.
  destruct (evaluate_Stations_inv _ _ _ Heval)
    as (items & sol & st' & Hseq & Hlen & Hchk & Hc & ->).
  apply capacity_loop_Next in Hc as [Hsum Hle].
  pose proof (check_stations_length _ _ _ Hchk) as Hl.
  unfold times_cover in Hcov.
  rewrite <- (load_partition (remove_dups sol) sol);
    [|lia|apply NoDup_remove_dups|intros s Hs; by apply elem_of_remove_dups].
  apply total_time_fmap_le.
  intros k Hk. apply (proj1 (elem_of_remove_dups _ _)) in Hk. specialize (Hle k Hk).
  rewrite Hsum, drop_0 in Hle. unfold acc in Hle. rewrite lookup_empty in Hle.
  simpl in Hle. lia.
Qed.

(** ** Further properties of _load_instance_from_file *)

Section LoaderResults.
Variable py_int : string → option Z.

Lemma sorted_values_length (d : gmap Z Z) : length (sorted_values d) = size d.
Proof.
  unfold sorted_values.
  by rewrite length_fmap, (Permutation_length (merge_sort_Permutation _ _)),
    length_map_to_list.
Qed.

Lemma store_times_size ps : ∀ d, (size (store_times ps d) ≤ size d + length ps)%nat.
Proof.
  induction ps as [|[k t] ps IH]; intros d; [simpl; lia|].
  unfold store_times in *. simpl. etrans; [apply IH|].
  rewrite map_size_insert. destruct (d !! _); simpl; lia.
Qed.

Lemma dict_append_nonempty d k s :
  Forall (λ entry : Z * list Z, entry.2 ≠ []) d →
  Forall (λ entry : Z * list Z, entry.2 ≠ []) (dict_append d k s).
Proof.
  induction 1 as [|[k0 l0] d Hl Hd IH]; simpl.
  - by repeat constructor.
  - destruct (decide (k0 = k)).
    + constructor; [|done]. simpl. intros Hnil.
      by apply app_eq_nil in Hnil as [_ ?].
    + by constructor.
Qed.

Lemma record_pairs_nonempty ps : ∀ d,
  Forall (λ entry : Z * list Z, entry.2 ≠ []) d →
  Forall (λ entry : Z * list Z, entry.2 ≠ []) (record_pairs ps d).
Proof.
  induction ps as [|[p s] ps IH]; intros d Hd; [done|].
  apply IH. by apply dict_append_nonempty.
Qed.

(** X11. What every loaded instance looks like: as many stations as tasks, at
    most one processing time per task, no predecessor listed twice in
    [successors] and no predecessor with an empty list. *)
Theorem loaded_instance_shape tokens inst :
  _load_instance_from_file py_int tokens = Ok inst →
  max_nb_stations inst = nb_tasks inst ∧
  (length (processing_time inst) ≤ Z.to_nat (nb_tasks inst))%nat ∧
  NoDup (successors inst).*1 ∧
  Forall (λ entry, entry.2 ≠ []) (successors inst).
Proof.
  intros Hload. destruct (load_Ok _ _ _ Hload) as (n & c & ps & rest & Hfile).
  rewrite (load_mandatory _ _ _ _ _ _ Hfile), scan_precedences_pairs in Hload.
  destruct (comma_pairs py_int rest) as [pairs|]; [|done].
  injection Hload as <-. simpl.
  destruct Hfile as (? & ? & ? & ? & ? & ? & ? & _ & _ & _ & _ & _ & _ & _ & _ & Hlen).
  split; [done|]. split; [|split].
  - rewrite sorted_values_length. pose proof (store_times_size ps ∅) as H.
    rewrite map_size_empty in H. lia.
  - apply record_pairs_NoDup. constructor.
  - apply record_pairs_nonempty. constructor.
Qed.
End LoaderResults.

(** The sorted items of a dict: the keys increase strictly, and the items are
    those of the dict. *)
Lemma sorted_items (d : gmap Z Z) :
  StronglySorted Z.lt (merge_sort key_le (map_to_list d)).*1 ∧
  ∀ k v, (k, v) ∈ merge_sort key_le (map_to_list d) ↔ d !! k = Some v.
Proof.
  set (L := merge_sort key_le (map_to_list d)).
  assert (L ≡ₚ map_to_list d) as Hperm by apply merge_sort_Permutation.
  split.
  - assert (Sorted Z.le L.*1) as Hs.
    { apply (Sorted_fmap fst key_le); [by intros x y|]. apply Sorted_merge_sort, _. }
    assert (NoDup L.*1) as Hnd by (rewrite Hperm; apply NoDup_fst_map_to_list).
    apply Sorted_StronglySorted in Hs; [|apply _].
    induction Hs as [|x l Hl IH Hx]; [constructor|].
    apply NoDup_cons in Hnd as [Hnot Hnd]. constructor; [by apply IH|].
    rewrite Forall_forall in Hx. apply Forall_forall. intros y Hy.
    specialize (Hx y Hy). assert (x ≠ y) by (by intros ->). lia.
  - intros k v. rewrite Hperm. apply elem_of_map_to_list.
Qed.

Lemma store_times_snoc ps k t d :
  store_times (ps ++ [(k, t)]) d = <[k - 1 := t]> (store_times ps d).
Proof. unfold store_times. by rewrite foldl_snoc. Qed.

(** A task number stored twice keeps the time stored last. *)
Lemma store_times_last ps d j :
  store_times ps d !! j =
  match last_time ps (j + 1) with Some t => Some t | None => d !! j end.
Proof.
  induction ps as [|[k t] ps IH] using rev_ind; [done|].
  rewrite store_times_snoc. unfold last_time in *.
  rewrite filter_app, fmap_app, last_app, filter_cons. simpl.
  destruct (decide (k = j + 1)) as [->|Hne]; simpl.
  - replace (j + 1 - 1) with j by lia. apply lookup_insert_eq.
  - rewrite lookup_insert_ne by lia. apply IH.
Qed.

Section LoadedTimes.
Variable py_int : string → option Z.

(** X12. Gaps and repetitions among the task numbers are accepted silently:
    the loaded [processing_time] holds one time per distinct task number, in
    increasing order of the task numbers, and for a task number listed more
    than once the time listed last. *)
Theorem processing_time_sorted_last_wins tokens n c ps rest inst :
  instance_file py_int tokens n c ps rest →
  _load_instance_from_file py_int tokens = Ok inst →
  ∃ numbers,
    StronglySorted Z.lt numbers ∧
    (∀ k, k ∈ numbers ↔ k ∈ ps.*1) ∧
    Forall2 (λ k t, last_time ps k = Some t) numbers (processing_time inst).
Proof.
  intros Hfile Hload.
  rewrite (load_mandatory _ _ _ _ _ _ Hfile) in Hload.
  destruct (scan_precedences py_int rest []); [|done]. injection Hload as <-.
  cbn [processing_time]. unfold sorted_values.
  set (d := store_times ps ∅). set (L := merge_sort key_le (map_to_list d)).
  destruct (sorted_items d) as [Hsorted Hitems]. fold L in Hsorted, Hitems.
  exists ((λ k, k + 1) <$> L.*1). split; [|split].
  - apply (StronglySorted_fmap _ Z.lt); [intros; lia|done].
  - intros k. rewrite list_elem_of_fmap. split.
    + intros (j & -> & Hj). apply list_elem_of_fmap in Hj as ([j' v] & -> & Hin).
      apply Hitems in Hin. simpl.
      assert (is_Some (d !! j')) as Hsome by (by exists v).
      apply store_times_dom in Hsome as [[? Hempty]|H]; [|done].
      by rewrite lookup_empty in Hempty.
    + intros Hk. assert (is_Some (d !! (k - 1))) as [v Hv].
      { apply store_times_dom. right. by replace (k - 1 + 1) with k by lia. }
      exists (k - 1). split; [lia|]. apply list_elem_of_fmap.
      exists (k - 1, v). split; [done|]. by apply Hitems.
  - rewrite <- list_fmap_compose. apply Forall2_fmap, Forall_Forall2_diag.
    apply Forall_forall. intros [k v] Hin. simpl. apply Hitems in Hin.
    unfold d in Hin. rewrite store_times_last, lookup_empty in Hin.
    by destruct (last_time ps (k + 1)).
Qed.
End LoadedTimes.

Lemma evaluate_solution_returns self solution items :
  times_cover self → successors_in_range self →
  as_sequence solution = Some items →
  Z.of_nat (length items) = nb_tasks self →
  evaluate_solution self solution = Ok PENALTY ∨
  ∃ n, evaluate_solution self solution = Ok (Stations n).
Proof.
  intros Hcov Hsucc Hseq Hlen.
  destruct (check_stations (max_nb_stations self) items) as [sol|] eqn:Hchk.
  - destruct (check_stations_Some_inv _ _ _ Hchk) as [Hval Hrange].
    assert (valid_assignment self solution sol) as Hvalid by (by exists items).
    destruct (evaluate_solution_cases _ _ _ Hcov Hsucc Hvalid) as [[H _]|[H _]];
      [by left|right; by eexists].
  - left. unfold evaluate_solution. rewrite Hseq.
    rewrite (proj2 (Z.eqb_eq _ _) Hlen). simpl. by rewrite Hchk.
Qed.

Lemma dict_append_Forall (P : Z → Prop) d k s :
  Forall (λ entry : Z * list Z, P entry.1 ∧ Forall P entry.2) d → P k → P s →
  Forall (λ entry : Z * list Z, P entry.1 ∧ Forall P entry.2) (dict_append d k s).
Proof.
  intros Hd Hk Hs. induction Hd as [|[k0 l0] d [Hk0 Hl0] Hd IH]; simpl.
  - by repeat constructor.
  - destruct (decide (k0 = k)).
    + constructor; [|done]. simpl. split; [done|].
      apply Forall_app. split; [done|by constructor].
    + by constructor.
Qed.

Lemma record_pairs_Forall (P : Z → Prop) ps : ∀ d,
  Forall (λ entry : Z * list Z, P entry.1 ∧ Forall P entry.2) d →
  Forall (λ pr : Z * Z, P (pr.1 - 1) ∧ P (pr.2 - 1)) ps →
  Forall (λ entry : Z * list Z, P entry.1 ∧ Forall P entry.2) (record_pairs ps d).
Proof.
  induction ps as [|[p s] ps IH]; intros d Hd Hps; [done|].
  apply Forall_cons in Hps as [[Hp Hs] Hps].
  apply IH; [|done]. by apply dict_append_Forall.
Qed.

Lemma last_time_listed ps k t : last_time ps k = Some t → (k, t) ∈ ps.
Proof.
  unfold last_time. intros H%last_Some_elem_of.
  apply list_elem_of_fmap in H as ([k' t'] & -> & Hin).
  apply list_elem_of_filter in Hin as [Hk Hin]. simpl in Hk. by subst k'.
Qed.

Section WellFormedFiles.
Variable py_int : string → option Z.

(** X13. A well-formed file gives a well-formed instance: when the task
    count is not negative, the task numbers are [1 .. nb_tasks] in any order
    and the precedence pairs name such task numbers only, loading succeeds,
    the instance satisfies the data-model invariants (and has non-negative
    times when the file has), and [evaluate_solution] raises on no list or
    tuple of [nb_tasks] entries. *)
Theorem well_formed_file_gives_well_formed_instance tokens n c ps rest pairs :
  instance_file py_int tokens n c ps rest →
  0 ≤ n →
  ps.*1 ≡ₚ seqZ 1 n →
  comma_pairs py_int rest = Some pairs →
  Forall (λ pr, (1 ≤ pr.1 ≤ n) ∧ (1 ≤ pr.2 ≤ n)) pairs →
  ∃ inst,
    _load_instance_from_file py_int tokens = Ok inst ∧
    times_cover inst ∧ successors_in_range inst ∧
    (Forall (λ pt, 0 ≤ pt.2) ps → times_nonneg inst) ∧
    ∀ solution items,
      as_sequence solution = Some items →
      Z.of_nat (length items) = nb_tasks inst →
      evaluate_solution inst solution = Ok PENALTY ∨
      ∃ k, evaluate_solution inst solution = Ok (Stations k).
Proof.
  intros Hfile Hn Hperm Hpairs Hrange.
  rewrite (load_mandatory _ _ _ _ _ _ Hfile), scan_precedences_pairs, Hpairs.
  eexists. split; [done|].
  assert (times_cover
            {| nb_tasks := n; max_nb_stations := n; cycle_time := c;
               processing_time := sorted_values (store_times ps ∅);
               successors := record_pairs pairs [] |}) as Hcov.
  { unfold times_cover. simpl.
    destruct (sorted_values_lookup (store_times ps ∅) n) as [-> _]; [|lia].
    intros k. rewrite store_times_dom, lookup_empty, Hperm, elem_of_seqZ.
    split; [intros [[? [=]]|?]; lia|intros ?; right; lia]. }
  assert (successors_in_range
            {| nb_tasks := n; max_nb_stations := n; cycle_time := c;
               processing_time := sorted_values (store_times ps ∅);
               successors := record_pairs pairs [] |}) as Hsucc.
  { unfold successors_in_range, task_index. simpl.
    apply (record_pairs_Forall (λ i, 0 ≤ i < n)); [constructor|].
    eapply Forall_impl; [exact Hrange|]. simpl. intros [p s] [? ?]. simpl in *. lia. }
  split; [done|]. split; [done|]. split.
  - intros Hpos. unfold times_nonneg, sorted_values. simpl.
    apply Forall_forall. intros t Ht.
    apply list_elem_of_fmap in Ht as ([k v] & -> & Hin). simpl.
    apply sorted_items in Hin. rewrite store_times_last, lookup_empty in Hin.
    destruct (last_time ps (k + 1)) as [t|] eqn:Hlast; [|done].
    injection Hin as ->. apply last_time_listed in Hlast.
    rewrite Forall_forall in Hpos. by apply (Hpos (k + 1, v)).
  - intros solution items. by apply evaluate_solution_returns.
Qed.

(** X15. The tokens that are skipped are never looked at: two files with the
    same task count, cycle time, pairs of numbers and trailing tokens load
    alike, whatever stands in the header and the other skipped places. *)
Theorem skipped_tokens_are_ignored tokens tokens' n c ps rest :
  instance_file py_int tokens n c ps rest →
  instance_file py_int tokens' n c ps rest →
  _load_instance_from_file py_int tokens = _load_instance_from_file py_int tokens'.
Proof.
  intros H H'.
  by rewrite (load_mandatory _ _ _ _ _ _ H), (load_mandatory _ _ _ _ _ _ H').
Qed.
End WellFormedFiles.

(** ** The format of a precedence token *)

Lemma split_comma_nonnil tok : split_comma tok ≠ [].
Proof.
  destruct tok as [|c tok]; simpl; [done|].
  destruct (Ascii.eqb c ","); [done|]. by destruct (split_comma tok).
Qed.

Lemma split_comma_free tok : has_comma tok = false → split_comma tok = [tok].
Proof.
  induction tok as [|c tok IH]; simpl; [done|].
  destruct (Ascii.eqb c ","); [done|]. intros H. by rewrite (IH H).
Qed.

Lemma split_comma_joined a b :
  has_comma a = false → split_comma (comma_joined a b) = a :: split_comma b.
Proof.
  unfold comma_joined. induction a as [|c a IH]; simpl.
  - done.
  - destruct (Ascii.eqb c ","); [done|]. intros H. by rewrite (IH H).
Qed.

Lemma split_comma_single tok : ∀ b,
  split_comma tok = [b] → tok = b ∧ has_comma tok = false.
Proof.
  induction tok as [|c tok IH]; intros b; simpl.
  - by intros [= <-].
  - destruct (Ascii.eqb c ",").
    + intros [= _ H]. by destruct (split_comma_nonnil tok).
    + destruct (split_comma tok) as [|piece [|? ?]] eqn:E; [|intros [= <-]|done].
      * by destruct (split_comma_nonnil tok).
      * destruct (IH piece eq_refl) as [-> ->]. done.
Qed.

Lemma split_comma_two tok : ∀ a b,
  split_comma tok = [a; b] →
  tok = comma_joined a b ∧ has_comma a = false ∧ has_comma b = false.
Proof.
  unfold comma_joined. induction tok as [|c tok IH]; intros a b; simpl; [done|].
  destruct (Ascii.eqb c ",") eqn:Ec.
  - intros [= <- H]. apply Ascii.eqb_eq in Ec as ->.
    destruct (split_comma_single _ _ H) as [-> Hb]. done.
  - destruct (split_comma tok) as [|piece pieces] eqn:E; [done|].
    intros [= <- ->]. destruct (IH piece b eq_refl) as (-> & Ha & Hb).
    simpl. by rewrite Ec.
Qed.

Section PairTokens.
Variable py_int : string → option Z.

(** X14. What the scan does with one token. Without a comma it is passed
    over. Made of two pieces without a comma that [int] accepts, joined by
    one comma, it records the pair, numbered from 0. Any other token with a
    comma, with more commas or a piece [int] rejects, raises [ValueError]. *)
Theorem precedence_token_format tok rest succs :
  (has_comma tok = false →
   scan_precedences py_int (tok :: rest) succs = scan_precedences py_int rest succs) ∧
  (∀ a b p s,
     tok = comma_joined a b → has_comma a = false → has_comma b = false →
     py_int a = Some p → py_int b = Some s →
     scan_precedences py_int (tok :: rest) succs =
     scan_precedences py_int rest (dict_append succs (p - 1) (s - 1))) ∧
  (has_comma tok = true →
   (¬ ∃ a b, tok = comma_joined a b ∧ has_comma a = false ∧ has_comma b = false ∧
             is_Some (py_int a) ∧ is_Some (py_int b)) →
   scan_precedences py_int (tok :: rest) succs = Raise ValueError).
Proof.
  split; [|split].
  - intros Hc. simpl. by rewrite Hc.
  - intros a b p s -> Ha Hb Hp Hs.
    assert (has_comma (comma_joined a b) = true) as Hc.
    { clear -Ha. unfold comma_joined. induction a as [|c a IH]; simpl.
      - done.
      - simpl in Ha. destruct (Ascii.eqb c ","); [done|]. by apply IH. }
    rewrite (scan_precedences_comma _ _ _ _ Hc). unfold parse_pair.
    rewrite (split_comma_joined _ _ Ha), (split_comma_free _ Hb). by rewrite Hp, Hs.
  - intros Hc Hno. rewrite (scan_precedences_comma _ _ _ _ Hc).
    destruct (parse_pair py_int tok) as [[p s]|] eqn:Hpp; [|done].
    destruct Hno. unfold parse_pair in Hpp.
    destruct (split_comma tok) as [|a [|b [|? ?]]] eqn:Hsplit; try done.
    destruct (py_int a) as [p'|] eqn:Hp; [|done].
    destruct (py_int b) as [s'|] eqn:Hs; [|done].
    destruct (split_comma_two _ _ _ Hsplit) as (-> & Ha & Hb).
    exists a, b. rewrite Hp, Hs. by repeat split.
Qed.
End PairTokens.

(** ** Properties of random_solution and of the constructor *)

Section RandomSolutions.
Variable rng : Type.
Variable randbelow : Z → rng → Z * rng.
Hypothesis randbelow_range : ∀ n g, 0 < n → 0 ≤ (randbelow n g).1 < n.

Lemma draw_stations_Ok_inv max_nb n : ∀ g sol g',
  draw_stations rng randbelow max_nb n g = Ok (sol, g') →
  length sol = n ∧ Forall (λ z, 0 ≤ z < max_nb) sol.
Proof.
  induction n as [|n IH]; intros g sol g'; simpl.
  - intros [= <- _]. split; [done|constructor].
  - unfold randint. replace (max_nb - 1 + 1 - 0) with max_nb by lia.
    destruct (0 <? max_nb) eqn:Hm; [|done].
    pose proof (randbelow_range max_nb g ltac:(lia)) as Hr.
    destruct (randbelow max_nb g) as [r g1]. simpl in Hr.
    destruct (draw_stations rng randbelow max_nb n g1) as [[rest g2]|] eqn:Hd; [|done].
    intros [= <- <-]. destruct (IH _ _ _ Hd) as [Hlen Hrange].
    split; [simpl; lia|]. constructor; [lia|done].
Qed.

Lemma draw_stations_Ok max_nb n : ∀ g,
  0 < max_nb → ∃ sol g', draw_stations rng randbelow max_nb n g = Ok (sol, g').
Proof.
  intros g Hm. revert g. induction n as [|n IH]; intros g; simpl; [by eexists _, _|].
  unfold randint. replace (max_nb - 1 + 1 - 0) with max_nb by lia.
  rewrite (proj2 (Z.ltb_lt _ _) Hm). destruct (randbelow max_nb g) as [r g1].
  destruct (IH g1) as (rest & g2 & ->). by eexists _, _.
Qed.

(** X16. [random_solution] returns [nb_tasks] station indices, each in
    [0, max_nb_stations) (none when [nb_tasks] is not positive), provided
    there is a station to draw; with tasks to place and no station it raises
    the [ValueError] of [randint]. *)
Theorem random_solution_contract self g :
  (0 < max_nb_stations self ∨ nb_tasks self ≤ 0 →
   ∃ sol g', random_solution rng randbelow self g = Ok (sol, g') ∧
             length sol = Z.to_nat (nb_tasks self) ∧
             Forall (λ z, 0 ≤ z < max_nb_stations self) sol) ∧
  (max_nb_stations self ≤ 0 → 0 < nb_tasks self →
   random_solution rng randbelow self g = Raise ValueError).
Proof.
  unfold random_solution. split.
  - intros Hcase.
    assert (∃ sol g', draw_stations rng randbelow (max_nb_stations self)
                        (Z.to_nat (nb_tasks self)) g = Ok (sol, g'))
      as (sol & g' & Hd).
    { destruct Hcase as [Hm|Hn]; [by apply draw_stations_Ok|].
      replace (Z.to_nat (nb_tasks self)) with 0%nat by lia. by eexists _, _. }
    exists sol, g'. split; [done|]. by eapply draw_stations_Ok_inv.
  - intros Hm Hn. destruct (Z.to_nat (nb_tasks self)) as [|n] eqn:E; [lia|].
    simpl. unfold randint.
    replace (max_nb_stations self - 1 + 1 - 0) with (max_nb_stations self) by lia.
    by rewrite (proj2 (Z.ltb_ge _ _) Hm).
Qed.

(** X17. What [random_solution] returns can always be scored: on an instance
    with a processing time per task and [successors] naming tasks only, it is
    a valid assignment, and [evaluate_solution] returns the penalty or a
    station count for it, without an exception. *)
Theorem random_solution_can_be_scored self g sol g' :
  times_cover self → successors_in_range self →
  random_solution rng randbelow self g = Ok (sol, g') →
  valid_assignment self (int_list sol) sol ∧
  (evaluate_solution self (int_list sol) = Ok PENALTY ∨
   ∃ n, evaluate_solution self (int_list sol) = Ok (Stations n)).
Proof.
  intros Hcov Hsucc Hrand.
  destruct (draw_stations_Ok_inv _ _ _ _ _ Hrand) as [Hlen Hrange].
  assert (Z.of_nat (length sol) = nb_tasks self) as Hlen'.
  { unfold times_cover in Hcov. lia. }
  split; [by apply valid_list|].
  apply (evaluate_solution_returns self _ (PyInt <$> sol)); try done.
  by rewrite length_fmap.
Qed.
End RandomSolutions.

(** ** The further properties on the sample instances and files *)

Lemma scenario_count_is_feasible :
  ∃ sol, valid_assignment scenario (PyList [PyInt 0; PyInt 0; PyInt 1]) sol ∧
         2%nat = length (remove_dups sol) ∧
         (length sol ≤ length (processing_time scenario))%nat ∧
         capacity_respected scenario sol ∧ precedence_respected scenario sol.
Proof.
  apply (station_count_only_when_feasible scenario).
  - forall_listed.
  - reflexivity.
Defined.

Lemma scenario_count_at_most_max :
  (2 ≤ Z.to_nat (max_nb_stations scenario))%nat.
Proof.
  apply (station_count_at_most_max scenario (PyList [PyInt 0; PyInt 0; PyInt 1])).
  reflexivity.
Defined.

(** The first task alone exceeds the cycle time; the two together do not. *)
Lemma dip_penalised_on_the_way :
  evaluate_solution dip (PyList [PyInt 0; PyInt 0]) = Ok PENALTY ∧
  station_load (processing_time dip) [0; 0] 0 ≤ cycle_time dip.
Proof.
  split; [|simpl; lia].
  apply (penalty_on_running_totals dip _ [0; 0]).
  - reflexivity.
  - forall_listed.
  - apply (valid_list dip [0; 0]); [reflexivity|forall_listed].
  - left. exists 0%nat, 0. split; [reflexivity|simpl; lia].
Defined.

Lemma tight_overloaded_penalised :
  evaluate_solution tight (PyList [PyInt 0; PyInt 0; PyInt 0]) = Ok PENALTY.
Proof.
  apply (penalty_exactly_when_infeasible tight _ [PyInt 0; PyInt 0; PyInt 0]).
  - reflexivity.
  - forall_listed.
  - forall_listed.
  - reflexivity.
  - reflexivity.
  - right. exists [0; 0; 0]. split.
    + apply (valid_list tight [0; 0; 0]); [reflexivity|forall_listed].
    + left. exists 0. split; [left|simpl; lia].
Defined.

Lemma short_times_raise :
  evaluate_solution short_times (PyList [PyInt 0; PyInt 1; PyInt 2]) = Raise IndexError.
Proof.
  apply (missing_times_raise_IndexError short_times _ [0; 1; 2]).
  - apply (valid_list short_times [0; 1; 2]); [reflexivity|forall_listed].
  - simpl. lia.
  - forall_listed.
  - intros k. simpl. destruct (decide (0 = k)), (decide (1 = k)); lia.
Defined.

Lemma scenario_total_time_covered :
  total_time (processing_time scenario) ≤ Z.of_nat 2 * cycle_time scenario.
Proof.
  apply (station_count_covers_total_time scenario (PyList [PyInt 0; PyInt 0; PyInt 1])).
  - reflexivity.
  - reflexivity.
Defined.

Lemma sample_instance_shape :
  ∃ inst,
    _load_instance_from_file ascii_int sample_tokens = Ok inst ∧
    max_nb_stations inst = nb_tasks inst ∧
    (length (processing_time inst) ≤ Z.to_nat (nb_tasks inst))%nat ∧
    NoDup (successors inst).*1 ∧
    Forall (λ entry, entry.2 ≠ []) (successors inst).
Proof.
  eexists. split; [vm_compute; reflexivity|].
  apply (loaded_instance_shape ascii_int sample_tokens). reflexivity.
Defined.

Lemma gappy_file :
  instance_file ascii_int gappy_tokens 3 10 [(5, 7); (2, 4); (5, 9)] [].
Proof.
  exists ["a"; "b"; "c"]%string, "3"%string, ["d"; "e"]%string, "10"%string,
    ["f"; "g"; "h"; "i"; "j"]%string, ["5"; "7"; "2"; "4"; "5"; "9"]%string,
    ["k"; "l"]%string.
  repeat split; reflexivity.
Defined.

(** Three pairs for two task numbers: two times are loaded, 4 for task 2 and
    9, listed last, for task 5. *)
Lemma gappy_times :
  _load_instance_from_file ascii_int gappy_tokens =
    Ok {| nb_tasks := 3; max_nb_stations := 3; cycle_time := 10;
          processing_time := [4; 9]; successors := [] |} ∧
  ∃ numbers,
    StronglySorted Z.lt numbers ∧
    (∀ k, k ∈ numbers ↔ k ∈ [5; 2; 5]) ∧
    Forall2 (λ k t, last_time [(5, 7); (2, 4); (5, 9)] k = Some t) numbers [4; 9].
Proof.
  split; [vm_compute; reflexivity|].
  apply (processing_time_sorted_last_wins ascii_int gappy_tokens 3 10
           [(5, 7); (2, 4); (5, 9)] []
           {| nb_tasks := 3; max_nb_stations := 3; cycle_time := 10;
              processing_time := [4; 9]; successors := [] |}).
  - exact gappy_file.
  - vm_compute. reflexivity.
Defined.

Lemma sample_file_well_formed :
  ∃ inst,
    _load_instance_from_file ascii_int sample_tokens = Ok inst ∧
    times_cover inst ∧ successors_in_range inst ∧
    (Forall (λ pt, 0 ≤ pt.2) [(3, 3); (1, 4); (2, 5)] → times_nonneg inst) ∧
    ∀ solution items,
      as_sequence solution = Some items →
      Z.of_nat (length items) = nb_tasks inst →
      evaluate_solution inst solution = Ok PENALTY ∨
      ∃ k, evaluate_solution inst solution = Ok (Stations k).
Proof.
  apply (well_formed_file_gives_well_formed_instance ascii_int sample_tokens 3 10
           [(3, 3); (1, 4); (2, 5)] sample_rest [(1, 3); (2, 3); (1, 2)]).
  - exact sample_file.
  - lia.
  - change ([3; 1; 2] ≡ₚ [1; 2; 3]).
    apply perm_trans with [1; 3; 2]; [apply perm_swap|apply perm_skip, perm_swap].
  - reflexivity.
  - forall_listed.
Defined.

Lemma sample_file_relabelled :
  instance_file ascii_int sample_tokens_relabelled 3 10 [(3, 3); (1, 4); (2, 5)]
    sample_rest.
Proof.
  exists ["x"; "y"; "z"]%string, "3"%string, ["1,2"; "9"]%string, "10"%string,
    ["1"; "2"; "3"; "4"; "5"]%string, ["3"; "3"; "1"; "4"; "2"; "5"]%string,
    ["8,9"; "w"]%string.
  repeat split; reflexivity.
Defined.

Lemma sample_header_ignored :
  _load_instance_from_file ascii_int sample_tokens =
  _load_instance_from_file ascii_int sample_tokens_relabelled.
Proof.
  apply (skipped_tokens_are_ignored ascii_int _ _ 3 10
           [(3, 3); (1, 4); (2, 5)] sample_rest).
  - exact sample_file.
  - exact sample_file_relabelled.
Defined.

Lemma lcg_randbelow_range : ∀ n g, 0 < n → 0 ≤ (lcg_randbelow n g).1 < n.
Proof. intros n g Hn. simpl. apply Z.mod_pos_bound, Hn. Defined.

Lemma lcg_random_solution :
  (0 < max_nb_stations scenario ∨ nb_tasks scenario ≤ 0 →
   ∃ sol g', random_solution Z lcg_randbelow scenario 2024 = Ok (sol, g') ∧
             length sol = Z.to_nat (nb_tasks scenario) ∧
             Forall (λ z, 0 ≤ z < max_nb_stations scenario) sol) ∧
  (max_nb_stations scenario ≤ 0 → 0 < nb_tasks scenario →
   random_solution Z lcg_randbelow scenario 2024 = Raise ValueError).
Proof.
  apply (random_solution_contract Z lcg_randbelow lcg_randbelow_range scenario 2024).
Defined.

Lemma lcg_random_solution_scored :
  ∃ sol g',
    random_solution Z lcg_randbelow scenario 2024 = Ok (sol, g') ∧
    valid_assignment scenario (int_list sol) sol ∧
    (evaluate_solution scenario (int_list sol) = Ok PENALTY ∨
     ∃ n, evaluate_solution scenario (int_list sol) = Ok (Stations n)).
Proof.
  eexists _, _. split; [vm_compute; reflexivity|].
  eapply (random_solution_can_be_scored Z lcg_randbelow lcg_randbelow_range scenario 2024).
  - reflexivity.
  - forall_listed.
  - vm_compute. reflexivity.
Defined.

Example lcg_draws :
  random_solution Z lcg_randbelow scenario 2024 = Ok ([2; 2; 1], 153100007).
Proof. vm_compute. reflexivity. Qed.

(** ** What the score depends on *)

(** On a valid assignment and an instance with a processing time per task and
    [successors] naming tasks only, the result is decided by two facts. *)
Lemma evaluate_solution_decided self solution sol :
  times_cover self → successors_in_range self →
  valid_assignment self solution sol →
  (evaluate_solution self solution = Ok PENALTY ∧
     (running_overload self sol ∨ out_of_order self sol)) ∨
  (evaluate_solution self solution = Ok (Stations (length (remove_dups sol))) ∧
     ¬ running_overload self sol ∧ ¬ out_of_order self sol).
Proof.
  intros Hcov Hsucc Hval.
  destruct (evaluate_solution_valid _ _ _ Hval) as [Hlen Heval].
  unfold times_cover in Hcov.
  pose proof (capacity_loop_Return_iff self sol 0%nat ∅ ltac:(lia)) as Hiff.
  assert (running_overload self sol ↔ capacity_loop self 0 sol ∅ = Return PENALTY)
    as Hrun.
  { rewrite Hiff. unfold running_overload. rewrite drop_0.
    unfold acc. setoid_rewrite lookup_empty. simpl.
    split; intros (m & s & Hm & H); exists m, s; (split; [done|lia]). }
  rewrite Heval.
  destruct (capacity_loop_total self sol 0%nat ∅) as [Hc|[st' Hc]]; [lia| |].
  - left. rewrite Hc. split; [done|]. left. by apply Hrun.
  - rewrite Hc.
    assert (¬ running_overload self sol) as Hnot.
    { intros H%Hrun. congruence. }
    destruct (precedence_loop_spec self sol Hlen _ Hsucc)
      as [[-> (p & succs & j & Hin & Hj & Hv)]|[-> Hok]].
    + left. split; [done|]. right. exists p, j. split; [by exists succs|done].
    + right. rewrite size_set_distinct. split; [done|]. split; [done|].
      intros (p & s & (succs & Hin & Hs) & Hv). by destruct (Hok p succs s).
Qed.

Section Relabelling.
Variable f : Z → Z.
Variable sol : list Z.
Hypothesis f_order : ∀ a b, a ∈ sol → b ∈ sol → (a < b ↔ f a < f b).

Lemma f_injective a b : a ∈ sol → b ∈ sol → f a = f b → a = b.
Proof.
  intros Ha Hb Heq.
  pose proof (f_order a b Ha Hb). pose proof (f_order b a Hb Ha). lia.
Qed.

Lemma station_load_relabel times l s :
  (∀ x, x ∈ l → x ∈ sol) → s ∈ sol →
  station_load times (f <$> l) (f s) = station_load times l s.
Proof.
  revert times. induction l as [|x l IH]; intros times Hl Hs;
    [csimpl; by destruct times|].
  destruct times as [|p times]; [done|]. csimpl.
  rewrite IH; [|intros; apply Hl; by right|done].
  destruct (decide (x = s)) as [->|Hne]; [by rewrite decide_True|].
  rewrite decide_False; [done|]. intros Heq. apply Hne.
  apply f_injective; [apply Hl; by left|done..].
Qed.

Lemma remove_dups_relabel l :
  (∀ x, x ∈ l → x ∈ sol) → length (remove_dups (f <$> l)) = length (remove_dups l).
Proof.
  induction l as [|x l IH]; intros Hl; [done|]. csimpl.
  assert (∀ y, y ∈ l → y ∈ sol) as Hl' by (intros; apply Hl; by right).
  specialize (IH Hl').
  destruct (decide_rel _ x l) as [Hin|Hnot];
    destruct (decide_rel _ (f x) (f <$> l)) as [Hin'|Hnot']; simpl; try done.
  - destruct Hnot'. apply list_elem_of_fmap. by exists x.
  - apply list_elem_of_fmap in Hin' as (y & Heq & Hy). destruct Hnot.
    rewrite (f_injective x y); [done|apply Hl; by left|by apply Hl'|done].
  - by rewrite IH.
Qed.

Lemma placed_after_relabel p s :
  placed_after (f <$> sol) p s ↔ placed_after sol p s.
Proof.
  unfold placed_after. setoid_rewrite list_lookup_fmap. split.
  - intros (a & b & Ha & Hb & Hgt).
    destruct (sol !! Z.to_nat p) as [a'|] eqn:Ea; [|done].
    destruct (sol !! Z.to_nat s) as [b'|] eqn:Eb; [|done].
    simpl in *. simplify_eq. exists a', b'. repeat split; try done.
    apply list_elem_of_lookup_2 in Ea, Eb.
    pose proof (f_order b' a' Eb Ea). lia.
  - intros (a & b & Ha & Hb & Hgt). exists (f a), (f b).
    rewrite Ha, Hb. repeat split; try done.
    apply list_elem_of_lookup_2 in Ha, Hb.
    pose proof (f_order b a Hb Ha). lia.
Qed.

Lemma running_overload_relabel self :
  running_overload self (f <$> sol) ↔ running_overload self sol.
Proof.
  unfold running_overload. split.
  - intros (m & s' & Hm & Hover). rewrite list_lookup_fmap in Hm.
    destruct (sol !! m) as [s|] eqn:Es; [|done]. injection Hm as <-.
    exists m, s. split; [done|].
    rewrite <- fmap_take, station_load_relabel in Hover; [done| |].
    + intros x Hx. apply elem_of_take in Hx as (i & Hi & _).
      by eapply list_elem_of_lookup_2.
    + by eapply list_elem_of_lookup_2.
  - intros (m & s & Hm & Hover). exists m, (f s).
    rewrite list_lookup_fmap, Hm. split; [done|].
    rewrite <- fmap_take, station_load_relabel; [done| |].
    + intros x Hx. apply elem_of_take in Hx as (i & Hi & _).
      by eapply list_elem_of_lookup_2.
    + by eapply list_elem_of_lookup_2.
Qed.

(** X19. Only the order of the station indices matters: renumbering the
    stations of a valid assignment by a map that keeps their order, into
    valid indices again, changes neither penalty nor station count. *)
Theorem renumbering_stations_keeps_the_score self solution solution' :
  times_cover self → successors_in_range self →
  valid_assignment self solution sol →
  valid_assignment self solution' (f <$> sol) →
  evaluate_solution self solution' = evaluate_solution self solution.
Proof.
  intros Hcov Hsucc Hval Hval'.
  assert (out_of_order self (f <$> sol) ↔ out_of_order self sol) as Hout.
  { unfold out_of_order. by setoid_rewrite placed_after_relabel. }
  pose proof (running_overload_relabel self) as Hrun.
  destruct (evaluate_solution_decided _ _ _ Hcov Hsucc Hval) as [[-> H]|(-> & H1 & H2)];
    destruct (evaluate_solution_decided _ _ _ Hcov Hsucc Hval')
      as [[-> H']|(-> & H1' & H2')]; try done; try tauto.
  by rewrite remove_dups_relabel.
Qed.
End Relabelling.

(** X20. Relaxing the instance keeps a station count: with the same tasks
    and times, a cycle time that is not smaller and no new precedence pair,
    an assignment that was given a station count is given the same one. *)
Theorem relaxing_keeps_the_station_count self self' solution n :
  times_cover self → successors_in_range self → successors_in_range self' →
  nb_tasks self' = nb_tasks self →
  max_nb_stations self' = max_nb_stations self →
  processing_time self' = processing_time self →
  cycle_time self ≤ cycle_time self' →
  (∀ p s, recorded self' p s → recorded self p s) →
  evaluate_solution self solution = Ok (Stations n) →
  evaluate_solution self' solution = Ok (Stations n).
Proof.
  intros Hcov Hsucc Hsucc' Hn Hm Hpt Hc Hrec Heval.
  destruct (evaluate_Stations_inv _ _ _ Heval)
    as (items & sol & st' & Hseq & Hlen & Hchk & _ & ->).
  destruct (check_stations_Some_inv _ _ _ Hchk) as [Hval Hrange].
  assert (valid_assignment self solution sol) as Hvalid by (by exists items).
  assert (valid_assignment self' solution sol) as Hvalid'.
  { exists items. rewrite Hn, Hm. done. }
  assert (times_cover self') as Hcov'.
  { unfold times_cover in *. by rewrite Hpt, Hn. }
  destruct (evaluate_solution_decided _ _ _ Hcov Hsucc Hvalid)
    as [[H _]|(_ & Hrun & Hout)]; [by rewrite Heval in H|].
  destruct (evaluate_solution_decided _ _ _ Hcov' Hsucc' Hvalid')
    as [[_ [Hrun'|Hout']]|[H _]]; [| |done].
  - destruct Hrun. destruct Hrun' as (m & s & Hm' & Hover).
    exists m, s. split; [done|]. rewrite Hpt in Hover. lia.
  - destruct Hout. destruct Hout' as (p & s & Hr & Hv).
    exists p, s. split; [by apply Hrec|done].
Qed.

(** Stations 0, 2, 5 renumbered 0, 1, 2. *)
Lemma spread_renumbered :
  evaluate_solution spread (PyList [PyInt 0; PyInt 1; PyInt 1; PyInt 2]) =
  evaluate_solution spread (PyList [PyInt 0; PyInt 2; PyInt 2; PyInt 5]).
Proof.
  apply (renumbering_stations_keeps_the_score (λ x, (x + 1) `div` 3) [0; 2; 2; 5]).
  - intros a b Ha Hb. by_cases_on Ha; by_cases_on Hb; vm_compute; split; congruence.
  - reflexivity.
  - forall_listed.
  - apply (valid_list spread [0; 2; 2; 5]); [reflexivity|forall_listed].
  - apply (valid_list spread [0; 1; 1; 2]); [reflexivity|forall_listed].
Defined.

(** From the cycle time of 9 to the cycle time of 10. *)
Lemma tight_relaxed_to_scenario :
  evaluate_solution scenario (PyList [PyInt 0; PyInt 0; PyInt 1]) = Ok (Stations 2).
Proof.
  apply (relaxing_keeps_the_station_count tight scenario).
  - reflexivity.
  - forall_listed.
  - forall_listed.
  - reflexivity.
  - reflexivity.
  - reflexivity.
  - simpl. lia.
  - intros p s H. exact H.
  - reflexivity.
Defined.

(** ** The trailing tokens and the precedence pairs *)

Lemma has_comma_free tok : has_comma tok = false ↔ comma_free tok.
Proof.
  unfold comma_free. induction tok as [|ch tok IH]; simpl.
  - split; [constructor|done].
  - destruct (Ascii.eqb ch ",") eqn:E.
    + apply Ascii.eqb_eq in E as ->. split; [done|].
      intros H. apply Forall_cons in H as [H _]. done.
    + apply Ascii.eqb_neq in E. rewrite IH. split.
      * intros H. by constructor.
      * intros H. by apply Forall_cons in H as [_ H].
Qed.

Lemma has_comma_joined a b : has_comma (comma_joined a b) = true.
Proof.
  unfold comma_joined. induction a as [|ch a IH]; simpl; [done|].
  by destruct (Ascii.eqb ch ",").
Qed.

Section DescribedTokens.
Variable py_int : string → option Z.

(** On tokens that are words and pairs the scan records the pairs and ends
    without an exception. *)
Lemma scan_precedences_described ts : ∀ succs,
  Forall (trailing_ok py_int) ts →
  scan_precedences py_int (token_of <$> ts) succs =
  Ok (record_pairs (pairs_of py_int ts) succs).
Proof.
  induction ts as [|t ts IH]; intros succs Hok; [done|].
  apply Forall_cons in Hok as [Ht Hts]. destruct t as [tok|a b]; csimpl.
  - apply has_comma_free in Ht. rewrite Ht. by apply IH.
  - destruct Ht as (Ha & Hb & [p Hp] & [s Hs]).
    apply has_comma_free in Ha, Hb.
    rewrite has_comma_joined, (split_comma_joined _ _ Ha), (split_comma_free _ Hb).
    unfold pairs_of. simpl. rewrite Hp, Hs. simpl. by apply IH.
Qed.

(** A scan that ends without an exception has seen words and pairs only. *)
Lemma scan_precedences_describe rest : ∀ succs succs',
  scan_precedences py_int rest succs = Ok succs' →
  ∃ ts, rest = token_of <$> ts ∧ Forall (trailing_ok py_int) ts.
Proof.
  induction rest as [|tok rest IH]; intros succs succs' Hscan.
  - by exists [].
  - destruct (has_comma tok) eqn:Hc.
    + rewrite (scan_precedences_comma _ _ _ _ Hc) in Hscan.
      destruct (parse_pair py_int tok) as [[p s]|] eqn:Hpp; [|done].
      apply IH in Hscan as (ts & -> & Hts).
      unfold parse_pair in Hpp.
      destruct (split_comma tok) as [|a [|b [|? ?]]] eqn:Hsplit; try done.
      destruct (py_int a) as [p'|] eqn:Hp; [|done].
      destruct (py_int b) as [s'|] eqn:Hs; [|done].
      destruct (split_comma_two _ _ _ Hsplit) as (-> & Ha & Hb).
      apply has_comma_free in Ha, Hb.
      exists (Pair a b :: ts). split; [done|]. constructor; [|done].
      simpl. rewrite Hp, Hs. by repeat split.
    + simpl in Hscan. rewrite Hc in Hscan.
      apply IH in Hscan as (ts & -> & Hts).
      exists (Word tok :: ts). split; [done|]. constructor; [|done].
      by apply has_comma_free.
Qed.

(** In a dict, the entry of a key is what the lookup of the key gives. *)
Lemma dict_lookup_elem (d : list (Z * list Z)) k l :
  NoDup d.*1 → ((k, l) ∈ d ↔ dict_lookup d k = Some l).
Proof.
  induction d as [|[k0 l0] d IH]; intros Hnd; simpl.
  - split; [by intros ?%elem_of_nil|done].
  - apply NoDup_cons in Hnd as [Hk0 Hnd]. rewrite elem_of_cons.
    destruct (decide (k0 = k)) as [->|Hne].
    + split.
      * intros [[= ->]|Hin]; [done|]. destruct Hk0.
        apply list_elem_of_fmap. by exists (k, l).
      * intros [= ->]. by left.
    + rewrite <- (IH Hnd). split; [intros [[= ? ?]|?]; [done|done]|by right].
Qed.

(** C8. After the mandatory fields every token that is a pair written
    "pred,succ", two integers joined by one comma, is recorded: its
    predecessor, numbered from 0, is one key of [successors], and the list of
    that key holds, numbered from 0 and in file order, the successors of all
    the pairs of this predecessor. The words without a comma between the
    pairs change nothing, and the scan ends without an exception when the
    tokens run out. A token with a comma that is no such pair makes the
    loader raise [ValueError]. *)
Theorem precedence_tokens_recorded tokens n c ps rest :
  instance_file py_int tokens n c ps rest →
  (∀ ts, rest = token_of <$> ts → Forall (trailing_ok py_int) ts →
     ∃ inst,
       _load_instance_from_file py_int tokens = Ok inst ∧
       NoDup (successors inst).*1 ∧
       (∀ k l, (k, l) ∈ successors inst ↔
               l = successors_of (pairs_of py_int ts) k ∧ l ≠ []) ∧
       ∀ k, dict_lookup (successors inst) k =
            if decide (successors_of (pairs_of py_int ts) k = []) then None
            else Some (successors_of (pairs_of py_int ts) k)) ∧
  (∀ tok, tok ∈ rest → ¬ comma_free tok → ¬ denotes_pair py_int tok →
     _load_instance_from_file py_int tokens = Raise ValueError).
Proof.
  intros Hfile. rewrite (load_mandatory _ _ _ _ _ _ Hfile). split.
  - intros ts -> Hts. rewrite (scan_precedences_described _ _ Hts).
    eexists. split; [done|]. simpl.
    assert (NoDup (record_pairs (pairs_of py_int ts) []).*1) as Hnd
      by (apply record_pairs_NoDup; constructor).
    split; [done|]. split.
    + intros k l. rewrite (dict_lookup_elem _ _ _ Hnd), record_pairs_lookup.
      destruct (decide (successors_of (pairs_of py_int ts) k = [])) as [Hnil|Hne];
        simpl.
      * split; [done|]. intros [-> ?]. done.
      * split; [by intros [= <-]|by intros [-> _]].
    + intros k. by rewrite record_pairs_lookup.
  - intros tok Hin Hcomma Hnot.
    destruct (scan_precedences py_int rest []) as [succs|e] eqn:Hscan;
      [|by rewrite (scan_precedences_Raise _ _ _ _ Hscan)].
    apply scan_precedences_describe in Hscan as (ts & -> & Hts).
    apply list_elem_of_fmap in Hin as (t & -> & Ht).
    rewrite Forall_forall in Hts. specialize (Hts t Ht).
    destruct t as [word|a b]; simpl in *; [done|].
    destruct Hnot. by exists a, b.
Qed.

(** X10. Loading succeeds exactly when the tokens are the mandatory fields
    followed by words without a comma and pairs, each pair two integers
    joined by one comma. *)
Theorem load_succeeds_exactly tokens :
  (∃ inst, _load_instance_from_file py_int tokens = Ok inst) ↔
  ∃ n c ps ts,
    instance_file py_int tokens n c ps (token_of <$> ts) ∧
    Forall (trailing_ok py_int) ts.
Proof.
  split.
  - intros [inst Hload].
    destruct (load_Ok _ _ _ Hload) as (n & c & ps & rest & Hfile).
    rewrite (load_mandatory _ _ _ _ _ _ Hfile) in Hload.
    destruct (scan_precedences py_int rest []) as [succs|] eqn:Hscan; [|done].
    apply scan_precedences_describe in Hscan as (ts & -> & Hts).
    by exists n, c, ps, ts.
  - intros (n & c & ps & ts & Hfile & Hts).
    rewrite (load_mandatory _ _ _ _ _ _ Hfile), (scan_precedences_described _ _ Hts).
    by eexists.
Qed.
End DescribedTokens.

(** The trailing tokens of the sample file, two pairs of predecessor 1 around
    a word and a pair of predecessor 2; and the same file with a token of two
    commas at its end. *)
Lemma sample_pairs_recorded :
  (∃ inst,
     _load_instance_from_file ascii_int sample_tokens = Ok inst ∧
     ((0, [2; 1]) ∈ successors inst ∧ (1, [2]) ∈ successors inst) ∧
     dict_lookup (successors inst) 0 = Some [2; 1] ∧
     dict_lookup (successors inst) 1 = Some [2] ∧
     dict_lookup (successors inst) 2 = None) ∧
  _load_instance_from_file ascii_int (sample_tokens ++ ["1,2,3"]%string) =
    Raise ValueError.
Proof.
  split.
  - destruct (precedence_tokens_recorded ascii_int sample_tokens 3 10
                [(3, 3); (1, 4); (2, 5)] sample_rest sample_file) as [Hrec _].
    destruct (Hrec [Pair "1" "3"; Word "junk"; Pair "2" "3"; Pair "1" "2"])
      as (inst & Hload & _ & Hin & Hlook).
    + reflexivity.
    + repeat constructor; try discriminate; by eexists.
    + exists inst. split; [exact Hload|]. split.
      * split; apply Hin; (split; [reflexivity|discriminate]).
      * split; [exact (Hlook 0)|]. split; [exact (Hlook 1)|exact (Hlook 2)].
  - destruct (precedence_tokens_recorded ascii_int
                (sample_tokens ++ ["1,2,3"]%string) 3 10
                [(3, 3); (1, 4); (2, 5)] (sample_rest ++ ["1,2,3"]%string))
      as [_ Hbad].
    + exists ["a"; "b"; "c"]%string, "3"%string, ["d"; "e"]%string, "10"%string,
        ["f"; "g"; "h"; "i"; "j"]%string, ["3"; "3"; "1"; "4"; "2"; "5"]%string,
        ["k"; "l"]%string.
      repeat split; reflexivity.
    + apply (Hbad "1,2,3"%string).
      * apply elem_of_app. right. left.
      * intros H. apply Forall_cons in H as [_ H].
        apply Forall_cons in H as [H _]. done.
      * intros (a & b & Heq & Ha & Hb & _).
        apply has_comma_free in Ha, Hb.
        apply (f_equal split_comma) in Heq.
        rewrite (split_comma_joined _ _ Ha), (split_comma_free _ Hb) in Heq.
        vm_compute in Heq. discriminate.
Defined.
